(** * Simple-FAQ-SDR: the session orchestrator of the voice demo

    A shallow embedding of [App.tsx] (connection state machine, tool-call
    handling, playback scheduling, interruption handling, teardown) and of
    the volume meter of the capture callback.

    Conventions.
    - JavaScript numbers that hold times (the playback cursor, the clock of
      the output audio context, buffer durations) are exact rationals [Qc];
      the samples of a captured frame are reals, because the meter takes a
      square root.  Rounding of doubles is not modelled.
    - Every [AudioBufferSourceNode] is an object with an identity; it is a
      natural number here, allocated from a counter.
    - Calls into the browser and into the SDK are recorded, in order, in the
      [trace] field of the state. *)

From Stdlib Require Import QArith Qcanon Reals Lra.
From stdpp Require Import gmap strings list.

Local Open Scope Qc_scope.

(** ** Data model ([types.ts]) *)

Inductive ConnectionState :=
  | DISCONNECTED
  | CONNECTING
  | CONNECTED
  | ERROR.

Global Instance ConnectionState_eq_dec : EqDecision ConnectionState.
Proof. solve_decision. Defined.

(** [LeadData] and [ToolArgs] are objects whose fields are all optional
    strings: finite maps from field names to strings. *)
Abbreviation LeadData := (gmap string string).
Abbreviation ToolArgs := (gmap string string).

Inductive Role := user | assistant | system.

(** The text of a log line; the CRM line embeds [JSON.stringify(args)]. *)
Inductive LogText :=
  | Text (s : string)
  | CrmUpdate (args : ToolArgs).

Record LogMessage := { role : Role; text : LogText }.

(** ** Messages of the remote session *)

Record FunctionCall := {
  fc_id : string;
  fc_name : string;
  fc_args : ToolArgs
}.

Record FunctionResponse := {
  fr_id : string;
  fr_name : string;
  fr_result : string
}.

Global Instance FunctionResponse_eq_dec : EqDecision FunctionResponse.
Proof. solve_decision. Defined.

(** [toolCall] is [msg.toolCall.functionCalls] when [msg.toolCall] is set;
    [audioData] is [msg.serverContent?.modelTurn?.parts?.[0]?.inlineData?.data];
    [interrupted] is the truth value of [msg.serverContent?.interrupted]. *)
Record LiveServerMessage := {
  toolCall : option (list FunctionCall);
  audioData : option string;
  interrupted : bool
}.

(** ** Browser objects *)

Record AudioBuffer := { duration : Qc }.

(** The output audio context; [currentTime] is its real-time clock. *)
Record AudioContext := { currentTime : Qc }.

(** ** Observable calls

    [SendToolResponse] stands for the call registered on the session
    promise, [sessionPromise.then(session => session.sendToolResponse(...))];
    the promise is the one [sessionPromiseRef.current] holds at that
    moment, that of the latest [ai.live.connect]: it is the promise of the
    session delivering the message unless the page has connected again
    since. *)

Inductive Effect :=
  | SetConnectionState (cs : ConnectionState)
  | GetUserMedia
  | LiveConnect (key : string)
  | SendToolResponse (functionResponses : list FunctionResponse)
  | SourceStart (source : nat) (when : Qc)
  | SourceStop (source : nat)
  | ProcessorDisconnect
  | MicSourceDisconnect
  | TracksStop
  | InputContextClose
  | OutputContextClose.

Global Instance Effect_eq_dec : EqDecision Effect.
Proof. solve_decision. Defined.

(** ** Component state: the [useState] cells and the [useRef] cells

    A reference to a browser object that the handlers only test against
    [null] is a boolean ([true]: set).  [nextSourceId] is the allocation
    counter of playback sources. *)
Record App := MkApp {
  apiKey : string;
  connectionState : ConnectionState;
  leadData : LeadData;
  logs : list LogMessage;
  isModelSpeaking : bool;
  errorMsg : option string;
  processorRef : bool;
  sourceRef : bool;
  mediaStreamRef : bool;
  inputAudioContextRef : bool;
  outputAudioContextRef : option AudioContext;
  sessionPromiseRef : bool;
  nextStartTimeRef : Qc;
  scheduledSourcesRef : gset nat;
  nextSourceId : nat;
  trace : list Effect
}.

(** The component as mounted. *)
Definition initial (key : string) : App :=
  {| apiKey := key; connectionState := DISCONNECTED; leadData := ∅;
     logs := []; isModelSpeaking := false; errorMsg := None;
     processorRef := false; sourceRef := false; mediaStreamRef := false;
     inputAudioContextRef := false; outputAudioContextRef := None;
     sessionPromiseRef := false; nextStartTimeRef := 0;
     scheduledSourcesRef := ∅; nextSourceId := O; trace := [] |}.

(** *** Field updates *)

Definition setLeadData (f : LeadData -> LeadData) (st : App) : App :=
  MkApp (apiKey st) (connectionState st) (f (leadData st)) (logs st)
    (isModelSpeaking st) (errorMsg st) (processorRef st) (sourceRef st)
    (mediaStreamRef st) (inputAudioContextRef st) (outputAudioContextRef st)
    (sessionPromiseRef st) (nextStartTimeRef st) (scheduledSourcesRef st)
    (nextSourceId st) (trace st).

Definition setLogs (f : list LogMessage -> list LogMessage) (st : App) : App :=
  MkApp (apiKey st) (connectionState st) (leadData st) (f (logs st))
    (isModelSpeaking st) (errorMsg st) (processorRef st) (sourceRef st)
    (mediaStreamRef st) (inputAudioContextRef st) (outputAudioContextRef st)
    (sessionPromiseRef st) (nextStartTimeRef st) (scheduledSourcesRef st)
    (nextSourceId st) (trace st).

Definition setIsModelSpeaking (b : bool) (st : App) : App :=
  MkApp (apiKey st) (connectionState st) (leadData st) (logs st)
    b (errorMsg st) (processorRef st) (sourceRef st)
    (mediaStreamRef st) (inputAudioContextRef st) (outputAudioContextRef st)
    (sessionPromiseRef st) (nextStartTimeRef st) (scheduledSourcesRef st)
    (nextSourceId st) (trace st).

Definition setErrorMsg (e : option string) (st : App) : App :=
  MkApp (apiKey st) (connectionState st) (leadData st) (logs st)
    (isModelSpeaking st) e (processorRef st) (sourceRef st)
    (mediaStreamRef st) (inputAudioContextRef st) (outputAudioContextRef st)
    (sessionPromiseRef st) (nextStartTimeRef st) (scheduledSourcesRef st)
    (nextSourceId st) (trace st).

Definition emit (es : list Effect) (st : App) : App :=
  MkApp (apiKey st) (connectionState st) (leadData st) (logs st)
    (isModelSpeaking st) (errorMsg st) (processorRef st) (sourceRef st)
    (mediaStreamRef st) (inputAudioContextRef st) (outputAudioContextRef st)
    (sessionPromiseRef st) (nextStartTimeRef st) (scheduledSourcesRef st)
    (nextSourceId st) (trace st ++ es).

(** [setConnectionState] is recorded, so that the states a handler passes
    through can be read off the trace. *)
Definition setConnectionState (cs : ConnectionState) (st : App) : App :=
  MkApp (apiKey st) cs (leadData st) (logs st)
    (isModelSpeaking st) (errorMsg st) (processorRef st) (sourceRef st)
    (mediaStreamRef st) (inputAudioContextRef st) (outputAudioContextRef st)
    (sessionPromiseRef st) (nextStartTimeRef st) (scheduledSourcesRef st)
    (nextSourceId st) (trace st ++ [SetConnectionState cs]).

Definition setProcessorRef (b : bool) (st : App) : App :=
  MkApp (apiKey st) (connectionState st) (leadData st) (logs st)
    (isModelSpeaking st) (errorMsg st) b (sourceRef st)
    (mediaStreamRef st) (inputAudioContextRef st) (outputAudioContextRef st)
    (sessionPromiseRef st) (nextStartTimeRef st) (scheduledSourcesRef st)
    (nextSourceId st) (trace st).

Definition setSourceRef (b : bool) (st : App) : App :=
  MkApp (apiKey st) (connectionState st) (leadData st) (logs st)
    (isModelSpeaking st) (errorMsg st) (processorRef st) b
    (mediaStreamRef st) (inputAudioContextRef st) (outputAudioContextRef st)
    (sessionPromiseRef st) (nextStartTimeRef st) (scheduledSourcesRef st)
    (nextSourceId st) (trace st).

Definition setMediaStreamRef (b : bool) (st : App) : App :=
  MkApp (apiKey st) (connectionState st) (leadData st) (logs st)
    (isModelSpeaking st) (errorMsg st) (processorRef st) (sourceRef st)
    b (inputAudioContextRef st) (outputAudioContextRef st)
    (sessionPromiseRef st) (nextStartTimeRef st) (scheduledSourcesRef st)
    (nextSourceId st) (trace st).

Definition setInputAudioContextRef (b : bool) (st : App) : App :=
  MkApp (apiKey st) (connectionState st) (leadData st) (logs st)
    (isModelSpeaking st) (errorMsg st) (processorRef st) (sourceRef st)
    (mediaStreamRef st) b (outputAudioContextRef st)
    (sessionPromiseRef st) (nextStartTimeRef st) (scheduledSourcesRef st)
    (nextSourceId st) (trace st).

Definition setOutputAudioContextRef (c : option AudioContext) (st : App) : App :=
  MkApp (apiKey st) (connectionState st) (leadData st) (logs st)
    (isModelSpeaking st) (errorMsg st) (processorRef st) (sourceRef st)
    (mediaStreamRef st) (inputAudioContextRef st) c
    (sessionPromiseRef st) (nextStartTimeRef st) (scheduledSourcesRef st)
    (nextSourceId st) (trace st).

Definition setSessionPromiseRef (b : bool) (st : App) : App :=
  MkApp (apiKey st) (connectionState st) (leadData st) (logs st)
    (isModelSpeaking st) (errorMsg st) (processorRef st) (sourceRef st)
    (mediaStreamRef st) (inputAudioContextRef st) (outputAudioContextRef st)
    b (nextStartTimeRef st) (scheduledSourcesRef st)
    (nextSourceId st) (trace st).

Definition setNextStartTimeRef (t : Qc) (st : App) : App :=
  MkApp (apiKey st) (connectionState st) (leadData st) (logs st)
    (isModelSpeaking st) (errorMsg st) (processorRef st) (sourceRef st)
    (mediaStreamRef st) (inputAudioContextRef st) (outputAudioContextRef st)
    (sessionPromiseRef st) t (scheduledSourcesRef st)
    (nextSourceId st) (trace st).

Definition setScheduledSourcesRef (s : gset nat) (st : App) : App :=
  MkApp (apiKey st) (connectionState st) (leadData st) (logs st)
    (isModelSpeaking st) (errorMsg st) (processorRef st) (sourceRef st)
    (mediaStreamRef st) (inputAudioContextRef st) (outputAudioContextRef st)
    (sessionPromiseRef st) (nextStartTimeRef st) s
    (nextSourceId st) (trace st).

Definition setNextSourceId (n : nat) (st : App) : App :=
  MkApp (apiKey st) (connectionState st) (leadData st) (logs st)
    (isModelSpeaking st) (errorMsg st) (processorRef st) (sourceRef st)
    (mediaStreamRef st) (inputAudioContextRef st) (outputAudioContextRef st)
    (sessionPromiseRef st) (nextStartTimeRef st) (scheduledSourcesRef st)
    n (trace st).

Definition log (r : Role) (t : LogText) : App -> App :=
  setLogs (fun prev => prev ++ [ {| role := r; text := t |} ]).

(** The clock of the output context moves on between two events. *)
Definition tick (t : Qc) (st : App) : App :=
  match outputAudioContextRef st with
  | Some _ => setOutputAudioContextRef (Some {| currentTime := t |}) st
  | None => st
  end.

(** ** The handlers of [App.tsx]

    Each handler is a function on the state: an event is handled to its
    end before the next one is looked at.  [connectToLiveAPI] is the
    exception: it suspends at [await initializeAudio()], which waits for
    [getUserMedia]; it is given in two parts, before and after that
    wait. *)

(** [stopAudio]: release the capture graph and both contexts, stop every
    scheduled source, empty the set, rewind the cursor. *)
Definition stopAudio (st : App) : App :=
  let st := if processorRef st
            then setProcessorRef false (emit [ProcessorDisconnect] st) else st in
  let st := if sourceRef st
            then setSourceRef false (emit [MicSourceDisconnect] st) else st in
  let st := if mediaStreamRef st
            then setMediaStreamRef false (emit [TracksStop] st) else st in
  let st := if inputAudioContextRef st
            then setInputAudioContextRef false (emit [InputContextClose] st) else st in
  let st := match outputAudioContextRef st with
            | Some _ => setOutputAudioContextRef None (emit [OutputContextClose] st)
            | None => st
            end in
  let st := emit (SourceStop <$> elements (scheduledSourcesRef st)) st in
  let st := setScheduledSourcesRef ∅ st in
  setNextStartTimeRef 0 st.

(** The statements of [initializeAudio] that may throw once
    [getUserMedia] has resolved. *)
Inductive AudioStage :=
  | InputContext
  | StreamSource
  | ScriptProcessor
  | GraphConnect
  | OutputContext.

(** How the part of [connectToLiveAPI] after the wait ends: [getUserMedia]
    rejects; a later statement of [initializeAudio] throws; [new
    GoogleGenAI] throws; [ai.live.connect] throws; or nothing throws and
    the session is requested.  [message] is [e.message]. *)
Inductive ConnectOutcome :=
  | MicrophoneDenied
  | AudioSetupFailed (stage : AudioStage)
  | ClientFailed (message : string)
  | ConnectFailed (message : string)
  | SessionRequested.

(** [initializeAudio] after [getUserMedia] has resolved, up to the
    statement that throws, if one does: the references are set one after
    the other, the output context (clock at 0) last. *)
Definition initializeAudio_resumed (throws_at : option AudioStage) (st : App) : App :=
  let st1 := setMediaStreamRef true st in
  let st2 := setInputAudioContextRef true st1 in
  let st3 := setSourceRef true st2 in
  let st4 := setProcessorRef true st3 in
  match throws_at with
  | Some InputContext => st1
  | Some StreamSource => st2
  | Some ScriptProcessor => st3
  | Some GraphConnect => st4
  | Some OutputContext => st4
  | None => setOutputAudioContextRef (Some {| currentTime := 0 |}) st4
  end.

(** The [catch] block of [connectToLiveAPI]; [message] is [e.message]. *)
Definition connect_failed (message : string) (st : App) : App :=
  let st := setErrorMsg
              (Some (if decide (message = "") then "Failed to connect." else message)) st in
  let st := setConnectionState ERROR st in
  stopAudio st.

(** [connectToLiveAPI] up to the wait: the guard on the credential and,
    behind it, everything up to the call of [getUserMedia]. *)
Definition connectToLiveAPI_called (st : App) : App :=
  if decide (apiKey st = "") then
    setErrorMsg (Some "API Key is required.") st
  else
    let st := setConnectionState CONNECTING st in
    let st := setErrorMsg None st in
    let st := log system (Text "Initializing audio...") st in
    emit [GetUserMedia] st.

(** [connectToLiveAPI] after the wait, on whatever the state is by then.
    Every error of [initializeAudio] is rethrown with the microphone
    message.  The callbacks handed to [ai.live.connect] are the handlers
    below. *)
Definition connectToLiveAPI_resumed (outcome : ConnectOutcome) (st : App) : App :=
  match outcome with
  | MicrophoneDenied =>
      connect_failed "Failed to access microphone. Please allow permissions." st
  | AudioSetupFailed stage =>
      connect_failed "Failed to access microphone. Please allow permissions."
        (initializeAudio_resumed (Some stage) st)
  | ClientFailed message =>
      connect_failed message (initializeAudio_resumed None st)
  | ConnectFailed message =>
      connect_failed message
        (log system (Text "Connecting to Gemini Live...")
           (initializeAudio_resumed None st))
  | SessionRequested =>
      let st := initializeAudio_resumed None st in
      let st := log system (Text "Connecting to Gemini Live...") st in
      let st := emit [LiveConnect (apiKey st)] st in
      setSessionPromiseRef true st
  end.

(** A whole run of [connectToLiveAPI] during which nothing else happens:
    with an empty credential it returns at the guard and never waits. *)
Definition connectToLiveAPI (outcome : ConnectOutcome) (st : App) : App :=
  if decide (apiKey st = "") then connectToLiveAPI_called st
  else connectToLiveAPI_resumed outcome (connectToLiveAPI_called st).

Definition onopen (st : App) : App :=
  let st := setConnectionState CONNECTED st in
  log system (Text "Connected! Start speaking.") st.

Definition onclose (st : App) : App :=
  let st := setConnectionState DISCONNECTED st in
  let st := log system (Text "Connection closed.") st in
  stopAudio st.

Definition onerror (st : App) : App :=
  let st := setErrorMsg (Some "Connection error occurred. Check console.") st in
  let st := setConnectionState ERROR st in
  stopAudio st.

Definition handleDisconnect (st : App) : App :=
  let st := stopAudio st in
  let st := setConnectionState DISCONNECTED st in
  setSessionPromiseRef false st.

(** *** Tool calls *)

Definition success (fc : FunctionCall) : FunctionResponse :=
  {| fr_id := fc_id fc; fr_name := fc_name fc;
     fr_result := "CRM Updated Successfully" |}.

(** The object spread [{ ...prev, ...args }]: the fields of [args] win. *)
Definition merge (prev : LeadData) (args : ToolArgs) : LeadData := args ∪ prev.

(** One turn of the loop over [msg.toolCall.functionCalls]; the accumulator
    is the state together with the [responses] array. *)
Definition tool_step (acc : App * list FunctionResponse) (fc : FunctionCall)
  : App * list FunctionResponse :=
  if decide (fc_name fc = "updateLeadInfo") then
    let st := setLeadData (fun prev => merge prev (fc_args fc)) acc.1 in
    let st := log assistant (CrmUpdate (fc_args fc)) st in
    (st, acc.2 ++ [success fc])
  else acc.

Definition handle_toolCall (msg : LiveServerMessage) (st : App) : App :=
  match toolCall msg with
  | Some functionCalls =>
      let '(st, responses) := foldl tool_step (st, []) functionCalls in
      if sessionPromiseRef st then emit [SendToolResponse responses] st else st
  | None => st
  end.

(** *** Interruptions *)

Definition handle_interrupted (msg : LiveServerMessage) (st : App) : App :=
  if interrupted msg then
    let st := log system (Text "Model interrupted by user.") st in
    let st := emit (SourceStop <$> elements (scheduledSourcesRef st)) st in
    let st := setScheduledSourcesRef ∅ st in
    let st := setIsModelSpeaking false st in
    match outputAudioContextRef st with
    | Some ctx => setNextStartTimeRef (currentTime ctx) st
    | None => st
    end
  else st.

(** [source.onended] of the playback source [source]. *)
Definition onended (source : nat) (st : App) : App :=
  let st := setScheduledSourcesRef (scheduledSourcesRef st ∖ {[source]}) st in
  if decide (size (scheduledSourcesRef st) = 0%nat)
  then setIsModelSpeaking false st else st.

(** The head start given to a buffer that arrives late: 0.05 s. *)
Definition late_offset : Qc := Q2Qc (5 # 100).

Section Playback.

(** [decodeAudioData(new Uint8Array(atob(data)...), ctx)] of
    [utils/audioUtils]: the decoded buffer, or [None] when [atob] or the
    decoder throws. *)
Variable decodeAudioData : string -> option AudioBuffer.

(** The scheduling block, after a successful decode. *)
Definition schedule (ctx : AudioContext) (audioBuffer : AudioBuffer) (st : App) : App :=
  let now := currentTime ctx in
  let st := if decide (nextStartTimeRef st < now)
            then setNextStartTimeRef (now + late_offset) st else st in
  let source := nextSourceId st in
  let st := setNextSourceId (S source) st in
  let st := emit [SourceStart source (nextStartTimeRef st)] st in
  let st := setScheduledSourcesRef ({[source]} ∪ scheduledSourcesRef st) st in
  setNextStartTimeRef (nextStartTimeRef st + duration audioBuffer) st.

Definition handle_audio (msg : LiveServerMessage) (st : App) : App :=
  match audioData msg, outputAudioContextRef st with
  | Some data, Some ctx =>
      if decide (data = "") then st
      else
        let st := setIsModelSpeaking true st in
        match decodeAudioData data with
        | Some audioBuffer => schedule ctx audioBuffer st
        | None => st
        end
  | _, _ => st
  end.

Definition onmessage (msg : LiveServerMessage) (st : App) : App :=
  let st := handle_toolCall msg st in
  let st := handle_audio msg st in
  handle_interrupted msg st.

End Playback.

(** ** Event sequences

    What the page receives while a session is up: a message of the remote
    session, the [ended] event of a playback source, the passing of time. *)
Inductive Event :=
  | Message (msg : LiveServerMessage)
  | Ended (source : nat)
  | Tick (t : Qc).

Definition step (decodeAudioData : string -> option AudioBuffer)
    (st : App) (ev : Event) : App :=
  match ev with
  | Message msg => onmessage decodeAudioData msg st
  | Ended source => onended source st
  | Tick t => tick t st
  end.

Definition run (decodeAudioData : string -> option AudioBuffer)
    (evs : list Event) (st : App) : App :=
  foldl (step decodeAudioData) st evs.

(** *** Messages of one kind *)

Definition audio_message (data : string) : LiveServerMessage :=
  {| toolCall := None; audioData := Some data; interrupted := false |}.

Definition interruption : LiveServerMessage :=
  {| toolCall := None; audioData := None; interrupted := true |}.

Definition tool_message (functionCalls : list FunctionCall) : LiveServerMessage :=
  {| toolCall := Some functionCalls; audioData := None; interrupted := false |}.

Definition updateLeadInfo (id : string) (args : ToolArgs) : FunctionCall :=
  {| fc_id := id; fc_name := "updateLeadInfo"; fc_args := args |}.

(** *** Derived notions used in the statements *)

(** The calls [stopAudio] makes, as a function of what is held. *)
Definition release_calls (st : App) : list Effect :=
  (if processorRef st then [ProcessorDisconnect] else []) ++
  (if sourceRef st then [MicSourceDisconnect] else []) ++
  (if mediaStreamRef st then [TracksStop] else []) ++
  (if inputAudioContextRef st then [InputContextClose] else []) ++
  (match outputAudioContextRef st with Some _ => [OutputContextClose] | None => [] end) ++
  (SourceStop <$> elements (scheduledSourcesRef st)).

(** The lead record after the lead-update calls of a list, in order. *)
Definition merge_calls (functionCalls : list FunctionCall) (prev : LeadData) : LeadData :=
  foldl (fun ld fc => if decide (fc_name fc = "updateLeadInfo")
                      then merge ld (fc_args fc) else ld) prev functionCalls.

(** The acknowledgments of the lead-update calls of a list, in order. *)
Definition acknowledgments (functionCalls : list FunctionCall) : list FunctionResponse :=
  success <$> filter (fun fc => fc_name fc = "updateLeadInfo") functionCalls.

(** The log lines of the lead-update calls of a list, in order. *)
Definition crm_lines (functionCalls : list FunctionCall) : list LogMessage :=
  (fun fc => {| role := assistant; text := CrmUpdate (fc_args fc) |})
    <$> filter (fun fc => fc_name fc = "updateLeadInfo") functionCalls.

(** The invariant of the ScheduledSourceSet. *)
Definition speaking_iff_scheduled (st : App) : Prop :=
  isModelSpeaking st = true ↔ scheduledSourcesRef st ≠ ∅.

(** The start time the scheduler picks for a cursor and a clock reading. *)
Definition start_time (cursor now : Qc) : Qc :=
  if decide (cursor < now) then now + late_offset else cursor.

(** ** The volume meter of [processor.onaudioprocess]

    [inputData] is the frame of the callback; the value computed here is the
    one handed to [setVolume]. *)

Definition sum (inputData : list R) : R :=
  foldl (fun sum x => (sum + x * x)%R) 0%R inputData.

Definition rms (inputData : list R) : R :=
  sqrt (sum inputData / INR (length inputData)).

Definition volume (inputData : list R) : R :=
  Rmin (rms inputData * 5) 1.

(** The mean of the squared samples, as a sum over the frame. *)
Definition mean_square (inputData : list R) : R :=
  (foldr Rplus 0 ((fun x => x * x) <$> inputData) / INR (length inputData))%R.

(** ** Concrete inputs for the examples *)

(** A stand-in for the decoder: a payload starting with ['!'] is rejected,
    any other payload of [n] characters decodes to a buffer of [n/4] s. *)
Definition sample_decoder (data : string) : option AudioBuffer :=
  if String.prefix "!" data then None
  else Some {| duration := Q2Qc (Z.of_nat (String.length data) # 4) |}.

(** A session that is up: connected, microphone granted, nothing played. *)
Definition connected : App := onopen (connectToLiveAPI SessionRequested (initial "key")).

(** The same session after the user pressed "End Call". *)
Definition hung_up : App := handleDisconnect connected.


(** The connected session one second in, with a buffer of 2 s started at 0:
    the cursor is at 2, ahead of the clock. *)
Definition playing : App :=
  tick 1 (onmessage sample_decoder (audio_message "12345678") connected).

(** ** The whole page as an event system

    Everything that can happen to the component: the two buttons, the
    second part of a connect request, the four callbacks of the session,
    the [ended] event of a source, the clock.  Sequences in which a
    connect request resumes without having been made are not excluded. *)
Inductive Action :=
  | Connect
  | Resume (outcome : ConnectOutcome)
  | Open
  | Receive (msg : LiveServerMessage)
  | Close
  | Fail
  | HangUp
  | SourceEnded (source : nat)
  | Clock (t : Qc).

Definition act (decodeAudioData : string -> option AudioBuffer)
    (st : App) (a : Action) : App :=
  match a with
  | Connect => connectToLiveAPI_called st
  | Resume outcome => connectToLiveAPI_resumed outcome st
  | Open => onopen st
  | Receive msg => onmessage decodeAudioData msg st
  | Close => onclose st
  | Fail => onerror st
  | HangUp => handleDisconnect st
  | SourceEnded source => onended source st
  | Clock t => tick t st
  end.

Definition session (decodeAudioData : string -> option AudioBuffer)
    (actions : list Action) (st : App) : App :=
  foldl (act decodeAudioData) st actions.

(** The function calls delivered over a sequence of actions, in order. *)
Definition calls_of (actions : list Action) : list FunctionCall :=
  actions ≫= fun a =>
    match a with
    | Receive msg => default [] (toolCall msg)
    | _ => []
    end.

(** No message of the sequence carries the interruption flag. *)
Definition uninterrupted (evs : list Event) : Prop :=
  Forall (fun ev => match ev with
                    | Message msg => interrupted msg = false
                    | _ => True
                    end) evs.

(** The capture graph and both contexts are held. *)
Definition acquired (st : App) : Prop :=
  processorRef st = true ∧ sourceRef st = true ∧ mediaStreamRef st = true ∧
  inputAudioContextRef st = true ∧ is_Some (outputAudioContextRef st).

(** Nothing of the audio pipeline is held. *)
Definition released (st : App) : Prop :=
  processorRef st = false ∧ sourceRef st = false ∧ mediaStreamRef st = false ∧
  inputAudioContextRef st = false ∧ outputAudioContextRef st = None ∧
  scheduledSourcesRef st = ∅ ∧ nextStartTimeRef st = 0.

(** ** [components/LeadForm.tsx] *)

(** What [Field] renders: the label, the text under it, and whether the
    text is set in the style of a collected value. *)
Record Row := { row_label : string; row_text : string; row_collected : bool }.

(** [value] is truthy: present and not the empty string. *)
Definition truthy (value : option string) : bool :=
  match value with
  | Some v => bool_decide (v ≠ "")
  | None => false
  end.

Definition Field (label : string) (value : option string) : Row :=
  {| row_label := label;
     row_text := if truthy value then default "" value else "Not collected yet...";
     row_collected := truthy value |}.

(** The rows of [LeadForm], top to bottom. *)
Definition LeadForm (data : LeadData) : list Row :=
  [ Field "Contact Name" (data !! "name");
    Field "Email Address" (data !! "email");
    Field "Company" (data !! "company");
    Field "Role" (data !! "role");
    Field "Team Size" (data !! "teamSize");
    Field "Timeline" (data !! "timeline");
    Field "Use Case / Notes" (data !! "useCase") ] ++
  (if truthy (data !! "summary")
   then [ Field "Final Summary" (data !! "summary") ] else []).

(** The fields behind the seven rows that are always shown, with the
    labels of the rows, top to bottom. *)
Definition fixed_rows : list (string * string) :=
  [ ("name", "Contact Name"); ("email", "Email Address"); ("company", "Company");
    ("role", "Role"); ("teamSize", "Team Size"); ("timeline", "Timeline");
    ("useCase", "Use Case / Notes") ].

(** The fields [LeadForm] reads. *)
Definition displayed_fields : list string :=
  ["name"; "email"; "company"; "role"; "teamSize"; "timeline"; "useCase"; "summary"].

(** ** [components/AudioVisualizer.tsx] and the controls of [App.tsx] *)

(** Width and height of the main circle, in pixels. *)
Definition circle_size (isActive : bool) (vol : R) : R :=
  if isActive then (64 + vol * 50)%R else 64%R.

(** The button under the visualizer. *)
Inductive Control :=
  | CallButton (disabled : bool) (label : string)
  | EndCallButton.

Definition control (cs : ConnectionState) : Control :=
  if decide (cs = DISCONNECTED ∨ cs = ERROR) then
    CallButton (bool_decide (cs = CONNECTING))
      (if decide (cs = CONNECTING) then "Connecting..." else "Call Riya")
  else EndCallButton.

(** [onClick] of whichever button is shown; a disabled button does nothing. *)
Definition click (st : App) : App :=
  match control (connectionState st) with
  | CallButton disabled _ => if disabled then st else connectToLiveAPI_called st
  | EndCallButton => handleDisconnect st
  end.

Global Instance Role_eq_dec : EqDecision Role.
Proof. solve_decision. Defined.

(** The lines of the activity log written in the assistant's name. *)
Definition assistant_lines (lines : list LogMessage) : list LogMessage :=
  filter (fun m => role m = assistant) lines.

(** The response lists sent to the session, in order of sending. *)
Definition tool_responses (es : list Effect) : list (list FunctionResponse) :=
  es ≫= fun e =>
    match e with
    | SendToolResponse functionResponses => [functionResponses]
    | _ => []
    end.

(** * Properties *)

(** ** Teardown *)

Lemma stopAudio_trace (st : App) :
  trace (stopAudio st) = trace st ++ release_calls st.
Proof.
  unfold stopAudio, release_calls.
  destruct st as [k cs ld lg sp em [] [] [] [] [c|] sess nx sch nid tr]; cbn;
    rewrite <- ?app_assoc; reflexivity.
Qed.

Lemma stopAudio_frame (st : App) :
  apiKey (stopAudio st) = apiKey st ∧
  connectionState (stopAudio st) = connectionState st ∧
  leadData (stopAudio st) = leadData st ∧
  logs (stopAudio st) = logs st ∧
  isModelSpeaking (stopAudio st) = isModelSpeaking st ∧
  errorMsg (stopAudio st) = errorMsg st ∧
  sessionPromiseRef (stopAudio st) = sessionPromiseRef st.
Proof.
  unfold stopAudio.
  destruct st as [k cs ld lg sp em [] [] [] [] [c|] sess nx sch nid tr]; cbn; done.
Qed.

Lemma stopAudio_released (st : App) :
  processorRef (stopAudio st) = false ∧
  sourceRef (stopAudio st) = false ∧
  mediaStreamRef (stopAudio st) = false ∧
  inputAudioContextRef (stopAudio st) = false ∧
  outputAudioContextRef (stopAudio st) = None ∧
  scheduledSourcesRef (stopAudio st) = ∅ ∧
  nextStartTimeRef (stopAudio st) = 0.
Proof.
  unfold stopAudio.
  destruct st as [k cs ld lg sp em [] [] [] [] [c|] sess nx sch nid tr]; cbn; done.
Qed.

(** C8.  When the remote session reports "closed", the connection state
    becomes Disconnected; every capture and playback resource held is
    released (each reference is null afterwards, and the calls made are
    exactly the release calls of what was held, which stop every scheduled
    source); the ScheduledSourceSet is empty and the cursor is 0; the
    LeadRecord is the one accumulated so far. *)
Theorem onclose_teardown (st : App) :
  connectionState (onclose st) = DISCONNECTED ∧
  (processorRef (onclose st) = false ∧
   sourceRef (onclose st) = false ∧
   mediaStreamRef (onclose st) = false ∧
   inputAudioContextRef (onclose st) = false ∧
   outputAudioContextRef (onclose st) = None) ∧
  trace (onclose st) =
    trace st ++ [SetConnectionState DISCONNECTED] ++ release_calls st ∧
  scheduledSourcesRef (onclose st) = ∅ ∧
  nextStartTimeRef (onclose st) = 0 ∧
  leadData (onclose st) = leadData st.
Proof.
  unfold onclose.
  set (st1 := log system _ (setConnectionState DISCONNECTED st)).
  destruct (stopAudio_frame st1) as (_ & Hcs & Hld & _).
  destruct (stopAudio_released st1) as (Hp & Hs & Hm & Hi & Ho & Hsch & Hnx).
  rewrite Hcs, Hld, Hp, Hs, Hm, Hi, Ho, Hsch, Hnx, stopAudio_trace.
  repeat split. cbn. by rewrite <- app_assoc.
Qed.

(** ** Connecting *)

(** C6, as stated, fails: with an empty credential the connection state is
    not Error after the connect request. *)
Lemma empty_credential_stays_disconnected :
  connectionState (initial "") = DISCONNECTED ∧
  connectionState (connectToLiveAPI SessionRequested (initial "")) ≠ ERROR.
Proof. split; [reflexivity | vm_compute; discriminate]. Qed.

(** C6, amended.  From the Disconnected state, a connect request made with
    an empty credential leaves the connection state Disconnected and sets
    the error message "API Key is required."; the state never reaches
    Connecting and no network session is opened: no call at all is made,
    and no reference is set. *)
Theorem connect_empty_credential (outcome : ConnectOutcome) (st : App) :
  apiKey st = "" →
  connectionState st = DISCONNECTED →
  connectionState (connectToLiveAPI outcome st) = DISCONNECTED ∧
  errorMsg (connectToLiveAPI outcome st) = Some "API Key is required." ∧
  trace (connectToLiveAPI outcome st) = trace st ∧
  sessionPromiseRef (connectToLiveAPI outcome st) = sessionPromiseRef st ∧
  outputAudioContextRef (connectToLiveAPI outcome st) = outputAudioContextRef st.
Proof.
  intros Hkey Hcs. unfold connectToLiveAPI, connectToLiveAPI_called.
  rewrite !decide_True by done. cbn. by rewrite Hcs.
Qed.

Lemma connect_empty_credential_witness :
  connectionState (connectToLiveAPI SessionRequested (initial "")) = DISCONNECTED ∧
  errorMsg (connectToLiveAPI SessionRequested (initial "")) = Some "API Key is required." ∧
  trace (connectToLiveAPI SessionRequested (initial "")) = trace (initial "") ∧
  sessionPromiseRef (connectToLiveAPI SessionRequested (initial "")) = sessionPromiseRef (initial "") ∧
  outputAudioContextRef (connectToLiveAPI SessionRequested (initial "")) = outputAudioContextRef (initial "").
Proof. apply (connect_empty_credential SessionRequested (initial "")); reflexivity. Defined.

(** With a credential the request does pass through Connecting and asks
    for the session. *)
Lemma connect_with_credential (st : App) :
  apiKey st ≠ "" →
  connectionState (connectToLiveAPI SessionRequested st) = CONNECTING ∧
  trace (connectToLiveAPI SessionRequested st) =
    trace st ++ [SetConnectionState CONNECTING; GetUserMedia; LiveConnect (apiKey st)].
Proof.
  intros Hkey. unfold connectToLiveAPI, connectToLiveAPI_called.
  rewrite !decide_False by done.
  cbn. split; [done|]. by rewrite <- !app_assoc.
Qed.

(** ** Tool calls *)

Lemma merge_lookup (prev : LeadData) (args : ToolArgs) (k : string) :
  merge prev args !! k =
    match args !! k with Some v => Some v | None => prev !! k end.
Proof.
  unfold merge. rewrite lookup_union.
  destruct (args !! k), (prev !! k); reflexivity.
Qed.

Lemma merge_calls_app (pre post : list FunctionCall) (prev : LeadData) :
  merge_calls (pre ++ post) prev = merge_calls post (merge_calls pre prev).
Proof. unfold merge_calls. apply foldl_app. Qed.

Lemma merge_calls_update (fc : FunctionCall) (post : list FunctionCall) (prev : LeadData) :
  fc_name fc = "updateLeadInfo" →
  merge_calls (fc :: post) prev = merge_calls post (merge prev (fc_args fc)).
Proof. intros H. unfold merge_calls. cbn. by rewrite decide_True. Qed.

Lemma merge_calls_other (fc : FunctionCall) (post : list FunctionCall) (prev : LeadData) :
  fc_name fc ≠ "updateLeadInfo" →
  merge_calls (fc :: post) prev = merge_calls post prev.
Proof. intros H. unfold merge_calls. cbn. by rewrite decide_False. Qed.

(** The loop in closed form. *)
Lemma tool_loop (functionCalls : list FunctionCall) (st : App)
    (responses : list FunctionResponse) :
  foldl tool_step (st, responses) functionCalls =
    (setLogs (fun prev => prev ++ crm_lines functionCalls)
       (setLeadData (merge_calls functionCalls) st),
     responses ++ acknowledgments functionCalls).
Proof.
  revert st responses.
  induction functionCalls as [|fc fcs IH]; intros st responses.
  - destruct st. unfold setLogs, setLeadData. cbn. by rewrite !app_nil_r.
  - cbn [foldl]. unfold tool_step at 2.
    destruct (decide (fc_name fc = "updateLeadInfo")) as [Hn|Hn].
    + rewrite IH. unfold acknowledgments, crm_lines.
      rewrite filter_cons_True by done.
      destruct st. unfold log, setLogs, setLeadData. cbn.
      unfold merge_calls. rewrite decide_True by done.
      by rewrite <- !app_assoc.
    + rewrite IH. unfold acknowledgments, crm_lines.
      rewrite filter_cons_False by done.
      destruct st. unfold setLogs, setLeadData. cbn.
      unfold merge_calls. by rewrite decide_False.
Qed.

Lemma handle_toolCall_calls (msg : LiveServerMessage)
    (functionCalls : list FunctionCall) (st : App) :
  toolCall msg = Some functionCalls →
  handle_toolCall msg st =
    let st1 := setLogs (fun prev => prev ++ crm_lines functionCalls)
                 (setLeadData (merge_calls functionCalls) st) in
    if sessionPromiseRef st
    then emit [SendToolResponse (acknowledgments functionCalls)] st1 else st1.
Proof.
  intros H. unfold handle_toolCall. rewrite H, tool_loop. cbn.
  by destruct (sessionPromiseRef st).
Qed.

Lemma unknown_call_skipped (pre post : list FunctionCall) (fc : FunctionCall)
    (acc : App * list FunctionResponse) :
  fc_name fc ≠ "updateLeadInfo" →
  foldl tool_step acc (pre ++ fc :: post) = foldl tool_step acc (pre ++ post).
Proof.
  intros H. rewrite !foldl_app. cbn [foldl].
  unfold tool_step at 2. by rewrite decide_False.
Qed.

Section Orchestrator.

Variable decodeAudioData : string -> option AudioBuffer.

Lemma schedule_frame (ctx : AudioContext) (b : AudioBuffer) (st : App) :
  leadData (schedule ctx b st) = leadData st ∧
  sessionPromiseRef (schedule ctx b st) = sessionPromiseRef st ∧
  outputAudioContextRef (schedule ctx b st) = outputAudioContextRef st ∧
  connectionState (schedule ctx b st) = connectionState st ∧
  isModelSpeaking (schedule ctx b st) = isModelSpeaking st.
Proof. unfold schedule. by case_decide. Qed.

Lemma schedule_effect (ctx : AudioContext) (b : AudioBuffer) (st : App) :
  let t := start_time (nextStartTimeRef st) (currentTime ctx) in
  trace (schedule ctx b st) = trace st ++ [SourceStart (nextSourceId st) t] ∧
  scheduledSourcesRef (schedule ctx b st) = {[nextSourceId st]} ∪ scheduledSourcesRef st ∧
  nextStartTimeRef (schedule ctx b st) = t + duration b ∧
  nextSourceId (schedule ctx b st) = S (nextSourceId st).
Proof. unfold schedule, start_time. by case_decide. Qed.

Lemma handle_audio_frame (msg : LiveServerMessage) (st : App) :
  leadData (handle_audio decodeAudioData msg st) = leadData st ∧
  sessionPromiseRef (handle_audio decodeAudioData msg st) = sessionPromiseRef st ∧
  outputAudioContextRef (handle_audio decodeAudioData msg st) = outputAudioContextRef st ∧
  connectionState (handle_audio decodeAudioData msg st) = connectionState st.
Proof.
  unfold handle_audio.
  destruct (audioData msg) as [data|]; [|done].
  destruct (outputAudioContextRef st) as [ctx|] eqn:Hctx; [|by rewrite Hctx].
  case_decide; [by rewrite Hctx|].
  destruct (decodeAudioData data) as [b|]; [|done].
  destruct (schedule_frame ctx b (setIsModelSpeaking true st)) as (-> & -> & -> & -> & _).
  done.
Qed.

Lemma handle_audio_trace (msg : LiveServerMessage) (st : App) :
  ∃ es, trace (handle_audio decodeAudioData msg st) = trace st ++ es.
Proof.
  unfold handle_audio.
  destruct (audioData msg) as [data|]; [|by exists []; rewrite app_nil_r].
  destruct (outputAudioContextRef st) as [ctx|]; [|by exists []; rewrite app_nil_r].
  case_decide; [by exists []; rewrite app_nil_r|].
  destruct (decodeAudioData data) as [b|]; [|by exists []; rewrite app_nil_r].
  destruct (schedule_effect ctx b (setIsModelSpeaking true st)) as (-> & _).
  by eexists.
Qed.

Lemma handle_interrupted_frame (msg : LiveServerMessage) (st : App) :
  leadData (handle_interrupted msg st) = leadData st ∧
  sessionPromiseRef (handle_interrupted msg st) = sessionPromiseRef st ∧
  outputAudioContextRef (handle_interrupted msg st) = outputAudioContextRef st ∧
  connectionState (handle_interrupted msg st) = connectionState st.
Proof.
  unfold handle_interrupted. destruct (interrupted msg); [|done].
  cbn. by destruct (outputAudioContextRef st) eqn:E; cbn; rewrite ?E.
Qed.

Lemma handle_interrupted_trace (msg : LiveServerMessage) (st : App) :
  ∃ es, trace (handle_interrupted msg st) = trace st ++ es.
Proof.
  unfold handle_interrupted.
  destruct (interrupted msg); [|by exists []; rewrite app_nil_r].
  cbn. destruct (outputAudioContextRef st); cbn; by eexists.
Qed.

Lemma onmessage_leadData (msg : LiveServerMessage) (st : App) :
  leadData (onmessage decodeAudioData msg st) = leadData (handle_toolCall msg st).
Proof.
  unfold onmessage.
  destruct (handle_interrupted_frame msg
              (handle_audio decodeAudioData msg (handle_toolCall msg st))) as (-> & _).
  by destruct (handle_audio_frame msg (handle_toolCall msg st)) as (-> & _).
Qed.

Lemma onmessage_trace (msg : LiveServerMessage) (st : App) :
  ∃ es, trace (onmessage decodeAudioData msg st) = trace (handle_toolCall msg st) ++ es.
Proof.
  unfold onmessage.
  destruct (handle_interrupted_trace msg
              (handle_audio decodeAudioData msg (handle_toolCall msg st))) as (es2 & ->).
  destruct (handle_audio_trace msg (handle_toolCall msg st)) as (es1 & ->).
  exists (es1 ++ es2). by rewrite app_assoc.
Qed.


Lemma onmessage_lead_calls (msg : LiveServerMessage)
    (functionCalls : list FunctionCall) (st : App) :
  toolCall msg = Some functionCalls →
  leadData (onmessage decodeAudioData msg st) = merge_calls functionCalls (leadData st).
Proof.
  intros H. rewrite onmessage_leadData, (handle_toolCall_calls _ _ _ H).
  cbn. by destruct (sessionPromiseRef st).
Qed.

End Orchestrator.



Section LeadUpdates.

Variable decodeAudioData : string -> option AudioBuffer.

(** C5.  Applying lead-update argument objects one after the other to an
    empty LeadRecord is an additive merge.  Whatever the record held, one
    application gives every field of the arguments its new value and
    leaves every other field as it was.  Starting from the empty record,
    [{name: "Asha"}] then [{company: "Acme"}] gives
    [{name: "Asha", company: "Acme"}], and [{name: "Beta"}] afterwards
    changes [name] only. *)
Theorem lead_merge_additive (st : App) (id1 id2 id3 : string) :
  leadData st = ∅ →
  (∀ (st' : App) (id : string) (args : ToolArgs) (k : string),
     leadData (onmessage decodeAudioData (tool_message [updateLeadInfo id args]) st') !! k =
       match args !! k with Some v => Some v | None => leadData st' !! k end) ∧
  (let st1 := onmessage decodeAudioData
                (tool_message [updateLeadInfo id1 {[ "name" := "Asha" ]}]) st in
   let st2 := onmessage decodeAudioData
                (tool_message [updateLeadInfo id2 {[ "company" := "Acme" ]}]) st1 in
   let st3 := onmessage decodeAudioData
                (tool_message [updateLeadInfo id3 {[ "name" := "Beta" ]}]) st2 in
   leadData st2 = {[ "name" := "Asha"; "company" := "Acme" ]} ∧
   leadData st3 = {[ "name" := "Beta"; "company" := "Acme" ]} ∧
   leadData st3 !! "company" = leadData st2 !! "company").
Proof.
  intros Hempty. split.
  - intros st' id args k.
    rewrite (onmessage_lead_calls _ _ [updateLeadInfo id args]) by done.
    rewrite merge_calls_update by done. apply merge_lookup.
  - cbn zeta.
    rewrite !(onmessage_lead_calls _ _ [updateLeadInfo _ _]) by done.
    rewrite !merge_calls_update by done. cbn [merge_calls foldl updateLeadInfo fc_args].
    rewrite Hempty. unfold merge.
    repeat split; by vm_compute.
Qed.


(** C10.  A function call whose name is not 'updateLeadInfo' is ignored:
    the message is handled exactly as the same message without that
    call, so it changes nothing in LeadRecord and adds no entry to the
    response list; a message carrying only such a call leaves LeadRecord
    as it was and, if a response is sent, the list sent is empty. *)
Theorem unknown_tool_ignored (st : App) (pre post : list FunctionCall)
    (fc : FunctionCall) (data : option string) (cut : bool) :
  fc_name fc ≠ "updateLeadInfo" →
  onmessage decodeAudioData
    {| toolCall := Some (pre ++ fc :: post); audioData := data; interrupted := cut |} st =
  onmessage decodeAudioData
    {| toolCall := Some (pre ++ post); audioData := data; interrupted := cut |} st ∧
  leadData (onmessage decodeAudioData (tool_message [fc]) st) = leadData st ∧
  trace (onmessage decodeAudioData (tool_message [fc]) st) =
    trace st ++ (if sessionPromiseRef st then [SendToolResponse []] else []).
Proof.
  intros Hname. split; [|split].
  - unfold onmessage, handle_toolCall. cbn [toolCall].
    by rewrite (unknown_call_skipped _ _ _ _ Hname).
  - rewrite (onmessage_lead_calls _ _ [fc]) by done.
    by rewrite merge_calls_other.
  - unfold onmessage, handle_audio, handle_interrupted, handle_toolCall.
    cbn. unfold tool_step. rewrite decide_False by done. cbn.
    destruct (sessionPromiseRef st); cbn; [done|by rewrite app_nil_r].
Qed.

End LeadUpdates.

Lemma lead_merge_additive_witness :
  leadData (onmessage sample_decoder
              (tool_message [updateLeadInfo "c2" {[ "company" := "Acme" ]}])
              (onmessage sample_decoder
                 (tool_message [updateLeadInfo "c1" {[ "name" := "Asha" ]}])
                 (initial "key")))
    = {[ "name" := "Asha"; "company" := "Acme" ]}.
Proof.
  pose proof (lead_merge_additive sample_decoder (initial "key") "c1" "c2" "c3" eq_refl)
    as (_ & H & _).
  exact H.
Defined.



(** The same invocation arriving after the page has hung up and connected
    again, while the new session is still connecting: the page holds a
    session reference again, that of the new session, and the response is
    registered on it. *)
Lemma lead_update_after_reconnect :
  connectionState (connectToLiveAPI SessionRequested hung_up) = CONNECTING ∧
  sessionPromiseRef (connectToLiveAPI SessionRequested hung_up) = true ∧
  tool_responses
    (trace (onmessage sample_decoder
              (tool_message [updateLeadInfo "call-1" {[ "name" := "Asha" ]}])
              (connectToLiveAPI SessionRequested hung_up))) =
    [[ {| fr_id := "call-1"; fr_name := "updateLeadInfo";
          fr_result := "CRM Updated Successfully" |} ]].
Proof. repeat split; by vm_compute. Qed.

Lemma unknown_tool_ignored_witness :
  leadData (onmessage sample_decoder
              (tool_message [ {| fc_id := "call-2"; fc_name := "sendEmail";
                                 fc_args := {[ "name" := "Eve" ]} |} ]) connected)
    = leadData connected.
Proof.
  pose proof (unknown_tool_ignored sample_decoder connected [] []
                {| fc_id := "call-2"; fc_name := "sendEmail";
                   fc_args := {[ "name" := "Eve" ]} |} None false) as H.
  destruct H as (_ & H & _); [vm_compute; discriminate|].
  exact H.
Defined.

(** ** Playback scheduling *)

Lemma late_offset_pos : 0 < late_offset.
Proof. reflexivity. Qed.

Lemma late_offset_ahead (now : Qc) : now ≤ now + late_offset.
Proof.
  rewrite <- (Qcplus_0_r now) at 1. apply Qcplus_le_mono_l.
  apply Qclt_le_weak, late_offset_pos.
Qed.

Lemma start_time_behind (cursor now : Qc) :
  cursor < now → start_time cursor now = now + late_offset.
Proof. intros H. unfold start_time. by rewrite decide_True. Qed.

Lemma start_time_ahead (cursor now : Qc) :
  now ≤ cursor → start_time cursor now = cursor.
Proof.
  intros H. unfold start_time. rewrite decide_False; [done|].
  by apply Qcle_not_lt.
Qed.

Lemma start_time_not_past (cursor now : Qc) : now ≤ start_time cursor now.
Proof.
  unfold start_time. case_decide as H; [apply late_offset_ahead|].
  by apply Qcnot_lt_le.
Qed.

Lemma handle_toolCall_frame (msg : LiveServerMessage) (st : App) :
  outputAudioContextRef (handle_toolCall msg st) = outputAudioContextRef st ∧
  nextStartTimeRef (handle_toolCall msg st) = nextStartTimeRef st ∧
  scheduledSourcesRef (handle_toolCall msg st) = scheduledSourcesRef st ∧
  isModelSpeaking (handle_toolCall msg st) = isModelSpeaking st ∧
  nextSourceId (handle_toolCall msg st) = nextSourceId st.
Proof.
  destruct (toolCall msg) as [fcs|] eqn:H.
  - rewrite (handle_toolCall_calls _ _ _ H). cbn.
    by destruct (sessionPromiseRef st).
  - unfold handle_toolCall. by rewrite H.
Qed.

Lemma handle_toolCall_trace (msg : LiveServerMessage) (st : App) :
  ∃ es, trace (handle_toolCall msg st) = trace st ++ es ∧
        ∀ source t, SourceStart source t ∉ es.
Proof.
  destruct (toolCall msg) as [fcs|] eqn:H.
  - rewrite (handle_toolCall_calls _ _ _ H). cbn.
    destruct (sessionPromiseRef st); cbn.
    + eexists; split; [done|]. intros source t Hin.
      apply list_elem_of_singleton in Hin. discriminate.
    + exists []. rewrite app_nil_r. split; [done|]. intros source t Hin.
      by apply elem_of_nil in Hin.
  - unfold handle_toolCall. rewrite H. exists []. rewrite app_nil_r.
    split; [done|]. intros source t Hin. by apply elem_of_nil in Hin.
Qed.

Section Scheduler.

Variable decodeAudioData : string -> option AudioBuffer.

(** A message that only carries audio, with a context to play it and a
    payload that decodes, runs the scheduling block. *)
Lemma onmessage_audio (st : App) (ctx : AudioContext) (data : string)
    (b : AudioBuffer) :
  outputAudioContextRef st = Some ctx →
  data ≠ "" →
  decodeAudioData data = Some b →
  onmessage decodeAudioData (audio_message data) st =
    schedule ctx b (setIsModelSpeaking true st).
Proof.
  intros Hctx Hdata Hdec. unfold onmessage, handle_toolCall, handle_interrupted.
  cbn [toolCall interrupted audio_message]. unfold handle_audio.
  cbn [audioData audio_message]. rewrite Hctx, decide_False by done.
  by rewrite Hdec.
Qed.

(** What such a message does to the playback state. *)
Lemma audio_step (st : App) (ctx : AudioContext) (data : string)
    (b : AudioBuffer) :
  outputAudioContextRef st = Some ctx →
  data ≠ "" →
  decodeAudioData data = Some b →
  trace (onmessage decodeAudioData (audio_message data) st) =
    trace st ++ [SourceStart (nextSourceId st)
                   (start_time (nextStartTimeRef st) (currentTime ctx))] ∧
  nextStartTimeRef (onmessage decodeAudioData (audio_message data) st) =
    start_time (nextStartTimeRef st) (currentTime ctx) + duration b ∧
  nextSourceId (onmessage decodeAudioData (audio_message data) st) =
    S (nextSourceId st) ∧
  outputAudioContextRef (onmessage decodeAudioData (audio_message data) st) =
    Some ctx ∧
  scheduledSourcesRef (onmessage decodeAudioData (audio_message data) st) =
    {[nextSourceId st]} ∪ scheduledSourcesRef st ∧
  isModelSpeaking (onmessage decodeAudioData (audio_message data) st) = true.
Proof.
  intros Hctx Hdata Hdec. rewrite (onmessage_audio st ctx data b) by done.
  destruct (schedule_effect ctx b (setIsModelSpeaking true st))
    as (-> & -> & -> & ->).
  destruct (schedule_frame ctx b (setIsModelSpeaking true st))
    as (_ & _ & -> & _ & ->).
  by rewrite <- Hctx.
Qed.

(** The calls of the audio block: at most one start, at the time the
    scheduler picks. *)
Lemma handle_audio_starts (msg : LiveServerMessage) (st : App) :
  trace (handle_audio decodeAudioData msg st) = trace st ∨
  ∃ ctx, outputAudioContextRef st = Some ctx ∧
         trace (handle_audio decodeAudioData msg st) =
           trace st ++ [SourceStart (nextSourceId st)
                          (start_time (nextStartTimeRef st) (currentTime ctx))].
Proof.
  unfold handle_audio.
  destruct (audioData msg) as [data|]; [|by left].
  destruct (outputAudioContextRef st) as [ctx|]; [|by left].
  case_decide; [by left|].
  destruct (decodeAudioData data) as [b|]; [|by left].
  right. exists ctx. split; [done|].
  by destruct (schedule_effect ctx b (setIsModelSpeaking true st)) as (-> & _).
Qed.

Lemma handle_interrupted_stops (msg : LiveServerMessage) (st : App) :
  trace (handle_interrupted msg st) =
    trace st ++ (if interrupted msg
                 then SourceStop <$> elements (scheduledSourcesRef st) else []).
Proof.
  unfold handle_interrupted. destruct (interrupted msg); cbn.
  - by destruct (outputAudioContextRef st).
  - by rewrite app_nil_r.
Qed.

Lemma handle_audio_keeps_sources (msg : LiveServerMessage) (st : App) :
  scheduledSourcesRef st ⊆ scheduledSourcesRef (handle_audio decodeAudioData msg st).
Proof.
  unfold handle_audio.
  destruct (audioData msg) as [data|]; [|done].
  destruct (outputAudioContextRef st) as [ctx|]; [|done].
  case_decide; [done|].
  destruct (decodeAudioData data) as [b|]; [|done].
  destruct (schedule_effect ctx b (setIsModelSpeaking true st)) as (_ & -> & _).
  cbn. apply union_subseteq_r.
Qed.

(** C2.  Three decoded buffers of durations d1, d2, d3 that arrive one
    after the other while the clock of the output context stays at 0 and
    the cursor starts at 0 are started at 0, at d1 and at d1 + d2: each
    starts where the one before it ends, and the cursor ends at
    d1 + d2 + d3. *)
Theorem gapless_playback (st : App) (data1 data2 data3 : string)
    (b1 b2 b3 : AudioBuffer) :
  outputAudioContextRef st = Some {| currentTime := 0 |} →
  nextStartTimeRef st = 0 →
  data1 ≠ "" → data2 ≠ "" → data3 ≠ "" →
  decodeAudioData data1 = Some b1 →
  decodeAudioData data2 = Some b2 →
  decodeAudioData data3 = Some b3 →
  0 ≤ duration b1 → 0 ≤ duration b2 →
  let st1 := onmessage decodeAudioData (audio_message data1) st in
  let st2 := onmessage decodeAudioData (audio_message data2) st1 in
  let st3 := onmessage decodeAudioData (audio_message data3) st2 in
  trace st3 =
    trace st ++ [SourceStart (nextSourceId st) 0;
                 SourceStart (S (nextSourceId st)) (duration b1);
                 SourceStart (S (S (nextSourceId st))) (duration b1 + duration b2)] ∧
  nextStartTimeRef st3 = duration b1 + duration b2 + duration b3.
Proof.
  intros Hctx Hcur Hd1 Hd2 Hd3 Hb1 Hb2 Hb3 Hpos1 Hpos2 st1 st2 st3.
  destruct (audio_step st _ data1 b1 Hctx Hd1 Hb1)
    as (Ht1 & Hn1 & Hi1 & Hc1 & _).
  fold st1 in Ht1, Hn1, Hi1, Hc1. cbn [currentTime] in Ht1, Hn1.
  rewrite Hcur, start_time_ahead in Ht1, Hn1 by apply Qcle_refl.
  rewrite Qcplus_0_l in Hn1.
  destruct (audio_step st1 _ data2 b2 Hc1 Hd2 Hb2)
    as (Ht2 & Hn2 & Hi2 & Hc2 & _).
  fold st2 in Ht2, Hn2, Hi2, Hc2. cbn [currentTime] in Ht2, Hn2.
  rewrite Hn1, start_time_ahead in Ht2, Hn2 by done.
  destruct (audio_step st2 _ data3 b3 Hc2 Hd3 Hb3) as (Ht3 & Hn3 & _).
  fold st3 in Ht3, Hn3. cbn [currentTime] in Ht3, Hn3.
  rewrite Hn2, start_time_ahead in Ht3, Hn3
    by (by apply Qcplus_nonneg_nonneg).
  split; [|done].
  rewrite Ht3, Ht2, Ht1, Hi2, Hi1. by rewrite <- !app_assoc.
Qed.

End Scheduler.

Section Interruption.

Variable decodeAudioData : string -> option AudioBuffer.

Lemma handle_interrupted_cut (msg : LiveServerMessage) (st : App)
    (ctx : AudioContext) :
  interrupted msg = true →
  outputAudioContextRef st = Some ctx →
  scheduledSourcesRef (handle_interrupted msg st) = ∅ ∧
  isModelSpeaking (handle_interrupted msg st) = false ∧
  nextStartTimeRef (handle_interrupted msg st) = currentTime ctx ∧
  nextSourceId (handle_interrupted msg st) = nextSourceId st.
Proof.
  intros Hcut Hctx. unfold handle_interrupted. rewrite Hcut. cbn.
  by rewrite Hctx.
Qed.

Lemma tick_frame (t : Qc) (st : App) (ctx : AudioContext) :
  outputAudioContextRef st = Some ctx →
  outputAudioContextRef (tick t st) = Some {| currentTime := t |} ∧
  nextStartTimeRef (tick t st) = nextStartTimeRef st ∧
  nextSourceId (tick t st) = nextSourceId st ∧
  trace (tick t st) = trace st.
Proof. intros H. unfold tick. by rewrite H. Qed.

(** C3.  A buffer that arrives while the cursor is strictly behind the
    clock of the output context is started at the current time plus
    0.05 s; and no message ever starts a buffer in the past: every start
    a message makes is at or after the current time. *)
Theorem late_buffer_start (st : App) (ctx : AudioContext) (data : string)
    (b : AudioBuffer) :
  outputAudioContextRef st = Some ctx →
  data ≠ "" →
  decodeAudioData data = Some b →
  nextStartTimeRef st < currentTime ctx →
  trace (onmessage decodeAudioData (audio_message data) st) =
    trace st ++ [SourceStart (nextSourceId st) (currentTime ctx + Q2Qc (5 # 100))] ∧
  (∀ (msg : LiveServerMessage) (st' : App) (source : nat) (t : Qc),
     SourceStart source t ∈ trace (onmessage decodeAudioData msg st') →
     SourceStart source t ∉ trace st' →
     ∃ ctx', outputAudioContextRef st' = Some ctx' ∧ currentTime ctx' ≤ t).
Proof.
  intros Hctx Hdata Hdec Hlate. split.
  - destruct (audio_step decodeAudioData st ctx data b Hctx Hdata Hdec) as (-> & _).
    by rewrite start_time_behind.
  - clear. intros msg st source t Hin Hold. unfold onmessage in Hin.
    rewrite handle_interrupted_stops in Hin.
    destruct (handle_toolCall_trace msg st) as (es & Htool & Hes).
    destruct (handle_toolCall_frame msg st) as (Hc & Hn & _).
    apply elem_of_app in Hin as [Hin|Hin].
    + destruct (handle_audio_starts decodeAudioData msg (handle_toolCall msg st))
        as [Hsame|(ctx & Hctx & Hstart)].
      * rewrite Hsame, Htool in Hin.
        apply elem_of_app in Hin as [Hin|Hin]; [done|by apply Hes in Hin].
      * rewrite Hstart, Htool in Hin.
        apply elem_of_app in Hin as [Hin|Hin].
        { apply elem_of_app in Hin as [Hin|Hin]; [done|by apply Hes in Hin]. }
        apply list_elem_of_singleton in Hin. injection Hin as _ ->.
        exists ctx. rewrite <- Hc. split; [done|]. apply start_time_not_past.
    + destruct (interrupted msg); [|by apply elem_of_nil in Hin].
      apply list_elem_of_fmap in Hin as (? & ? & _). discriminate.
Qed.

(** C1, amended.  On an interruption signal, with the output context
    open, the handler force-stops every handle of the ScheduledSourceSet,
    empties the set, sets the speaking indicator to false and resets the
    cursor to the clock of the context.  A buffer that arrives afterwards
    is scheduled from that reset cursor by the usual rule: at the reset
    cursor if the clock has not passed it, at the current time plus
    0.05 s otherwise; the time queued before the interruption plays no
    part. *)
Theorem interruption_cuts_playback (st : App) (ctx : AudioContext)
    (msg : LiveServerMessage) :
  outputAudioContextRef st = Some ctx →
  interrupted msg = true →
  (∃ es, trace (onmessage decodeAudioData msg st) = trace st ++ es ∧
         ∀ source, source ∈ scheduledSourcesRef st → SourceStop source ∈ es) ∧
  scheduledSourcesRef (onmessage decodeAudioData msg st) = ∅ ∧
  isModelSpeaking (onmessage decodeAudioData msg st) = false ∧
  nextStartTimeRef (onmessage decodeAudioData msg st) = currentTime ctx ∧
  (∀ (t' : Qc) (data : string) (b : AudioBuffer),
     data ≠ "" →
     decodeAudioData data = Some b →
     trace (onmessage decodeAudioData (audio_message data)
              (tick t' (onmessage decodeAudioData msg st))) =
       trace (onmessage decodeAudioData msg st) ++
         [SourceStart (nextSourceId (onmessage decodeAudioData msg st))
            (if decide (currentTime ctx < t')
             then t' + Q2Qc (5 # 100) else currentTime ctx)]).
Proof.
  intros Hctx Hcut.
  destruct (handle_toolCall_frame msg st) as (Hc1 & _).
  destruct (handle_audio_frame decodeAudioData msg (handle_toolCall msg st))
    as (_ & _ & Hc2 & _).
  rewrite Hc1, Hctx in Hc2.
  destruct (handle_interrupted_frame msg
              (handle_audio decodeAudioData msg (handle_toolCall msg st)))
    as (_ & _ & Hc3 & _).
  rewrite Hc2 in Hc3.
  destruct (handle_interrupted_cut msg _ ctx Hcut Hc2) as (Hset & Hsp & Hcur & _).
  fold (onmessage decodeAudioData msg st) in Hset, Hsp, Hcur, Hc3.
  split; [|split; [done|split; [done|split; [done|]]]].
  - unfold onmessage. rewrite handle_interrupted_stops, Hcut.
    destruct (handle_audio_trace decodeAudioData msg (handle_toolCall msg st))
      as (es2 & ->).
    destruct (handle_toolCall_trace msg st) as (es1 & -> & _).
    eexists. split; [by rewrite <- !app_assoc|].
    intros source Hin. rewrite !elem_of_app. right; right.
    apply list_elem_of_fmap. exists source. split; [done|].
    apply elem_of_elements.
    apply (handle_audio_keeps_sources decodeAudioData msg).
    by destruct (handle_toolCall_frame msg st) as (_ & _ & -> & _).
  - intros t' data b Hdata Hdec.
    destruct (tick_frame t' _ _ Hc3) as (Hc4 & Hn4 & Hi4 & Ht4).
    destruct (audio_step decodeAudioData _ _ data b Hc4 Hdata Hdec) as (-> & _).
    by rewrite Ht4, Hi4, Hn4, Hcur.
Qed.

(** C4, the failing case.  A message whose audio payload does not decode,
    arriving while nothing is scheduled, leaves the speaking indicator
    true with an empty ScheduledSourceSet. *)
Theorem failed_decode_leaves_speaking (st : App) (ctx : AudioContext)
    (data : string) :
  outputAudioContextRef st = Some ctx →
  data ≠ "" →
  decodeAudioData data = None →
  scheduledSourcesRef st = ∅ →
  isModelSpeaking (onmessage decodeAudioData (audio_message data) st) = true ∧
  scheduledSourcesRef (onmessage decodeAudioData (audio_message data) st) = ∅ ∧
  ¬ speaking_iff_scheduled (onmessage decodeAudioData (audio_message data) st).
Proof.
  intros Hctx Hdata Hdec Hempty.
  assert (onmessage decodeAudioData (audio_message data) st =
          setIsModelSpeaking true st) as ->.
  { unfold onmessage, handle_toolCall, handle_interrupted, handle_audio. cbn.
    by rewrite Hctx, decide_False, Hdec. }
  cbn. repeat split; [done|]. unfold speaking_iff_scheduled. cbn.
  intros [H _]. by apply H.
Qed.

End Interruption.

(** C1, as stated, fails: a buffer that arrives after the interruption,
    once the clock has passed the reset cursor, is not started at the reset
    cursor.  Interrupted at clock 1 (cursor reset from 2 to 1), the buffer
    arriving at clock 2 starts at 2.05. *)
Lemma buffer_after_interruption_not_at_reset_cursor :
  nextStartTimeRef playing = Q2Qc 2 ∧
  nextStartTimeRef (onmessage sample_decoder interruption playing) = Q2Qc 1 ∧
  trace (onmessage sample_decoder (audio_message "1234")
           (tick (Q2Qc 2) (onmessage sample_decoder interruption playing))) =
    trace (onmessage sample_decoder interruption playing) ++
      [SourceStart 1 (Q2Qc (205 # 100))] ∧
  Q2Qc (205 # 100) ≠ nextStartTimeRef (onmessage sample_decoder interruption playing).
Proof.
  split; [|split; [|split]]; by apply (bool_decide_unpack _); vm_compute.
Qed.

Lemma interruption_cuts_playback_witness :
  scheduledSourcesRef (onmessage sample_decoder interruption playing) = ∅ ∧
  isModelSpeaking (onmessage sample_decoder interruption playing) = false ∧
  nextStartTimeRef (onmessage sample_decoder interruption playing) = Q2Qc 1.
Proof.
  pose proof (interruption_cuts_playback sample_decoder playing
                {| currentTime := Q2Qc 1 |} interruption eq_refl eq_refl)
    as (_ & H1 & H2 & H3 & _).
  exact (conj H1 (conj H2 H3)).
Defined.

Lemma gapless_playback_witness :
  trace (onmessage sample_decoder (audio_message "123456")
           (onmessage sample_decoder (audio_message "12")
              (onmessage sample_decoder (audio_message "1234") connected))) =
    trace connected ++
      [SourceStart 0 0; SourceStart 1 (Q2Qc (4 # 4));
       SourceStart 2 (Q2Qc (4 # 4) + Q2Qc (2 # 4))].
Proof.
  pose proof (gapless_playback sample_decoder connected "1234" "12" "123456"
                {| duration := Q2Qc (4 # 4) |} {| duration := Q2Qc (2 # 4) |}
                {| duration := Q2Qc (6 # 4) |}) as H.
  destruct H as (H & _);
    [reflexivity | reflexivity | discriminate | discriminate | discriminate
    | reflexivity | reflexivity | reflexivity | discriminate | discriminate |].
  exact H.
Defined.

Lemma late_buffer_start_witness :
  trace (onmessage sample_decoder (audio_message "1234") (tick (Q2Qc 1) connected)) =
    trace (tick (Q2Qc 1) connected) ++ [SourceStart 0 (Q2Qc 1 + Q2Qc (5 # 100))].
Proof.
  pose proof (late_buffer_start sample_decoder (tick (Q2Qc 1) connected)
                {| currentTime := Q2Qc 1 |} "1234" {| duration := Q2Qc (4 # 4) |}) as H.
  destruct H as (H & _); [reflexivity | discriminate | reflexivity | reflexivity |].
  exact H.
Defined.

Lemma failed_decode_leaves_speaking_witness :
  isModelSpeaking (onmessage sample_decoder (audio_message "!!!") connected) = true ∧
  scheduledSourcesRef (onmessage sample_decoder (audio_message "!!!") connected) = ∅.
Proof.
  pose proof (failed_decode_leaves_speaking sample_decoder connected
                {| currentTime := 0 |} "!!!") as H.
  destruct H as (H1 & H2 & _); [reflexivity | discriminate | reflexivity | reflexivity |].
  exact (conj H1 H2).
Defined.

(** ** The speaking indicator over event sequences *)

Section Indicator.

Variable decodeAudioData : string -> option AudioBuffer.

Lemma onended_indicator (source : nat) (st : App) :
  (scheduledSourcesRef st ≠ ∅ → isModelSpeaking st = true) →
  (isModelSpeaking st = true → scheduledSourcesRef st ≠ ∅) →
  speaking_iff_scheduled (onended source st).
Proof.
  intros Hfwd Hbwd. unfold onended, speaking_iff_scheduled. cbn.
  case_decide as Hsize; cbn.
  - apply size_empty_inv in Hsize. apply leibniz_equiv in Hsize.
    split; [done|]. by intros [].
  - assert (scheduledSourcesRef st ∖ {[source]} ≠ ∅) as Hne.
    { intros Heq. apply Hsize. rewrite Heq. apply size_empty. }
    assert (scheduledSourcesRef st ≠ ∅) as Hne'.
    { intros Heq. apply Hne. rewrite Heq. apply empty_difference_L. }
    split; [done|]. intros _. by apply Hfwd.
Qed.

(** Whatever the decoder does, a non-empty ScheduledSourceSet comes with
    the indicator set. *)
Lemma scheduled_implies_speaking (evs : list Event) (st : App) :
  (scheduledSourcesRef st ≠ ∅ → isModelSpeaking st = true) →
  scheduledSourcesRef (run decodeAudioData evs st) ≠ ∅ →
  isModelSpeaking (run decodeAudioData evs st) = true.
Proof.
  revert st. induction evs as [|ev evs IH]; intros st Hst; [done|].
  cbn [run foldl]. apply IH. clear IH.
  destruct ev as [msg|source|t]; cbn [step].
  - unfold onmessage.
    destruct (handle_toolCall_frame msg st) as (_ & _ & Hs1 & Hi1 & _).
    assert (scheduledSourcesRef (handle_audio decodeAudioData msg (handle_toolCall msg st)) ≠ ∅ →
            isModelSpeaking (handle_audio decodeAudioData msg (handle_toolCall msg st)) = true)
      as Haudio.
    { unfold handle_audio.
      destruct (audioData msg) as [data|]; [|by rewrite Hs1, Hi1].
      destruct (outputAudioContextRef (handle_toolCall msg st)) as [ctx|];
        [|by rewrite Hs1, Hi1].
      case_decide; [by rewrite Hs1, Hi1|].
      destruct (decodeAudioData data) as [b|]; [|done].
      by destruct (schedule_frame ctx b (setIsModelSpeaking true (handle_toolCall msg st)))
        as (_ & _ & _ & _ & ->). }
    unfold handle_interrupted. destruct (interrupted msg); [|done].
    cbn. by destruct (outputAudioContextRef _).
  - intros Hne.
    unfold onended in *. cbn in *. case_decide as Hsize; cbn in *.
    + apply size_empty_inv, leibniz_equiv in Hsize. done.
    + apply Hst. intros Heq. apply Hne. rewrite Heq. apply empty_difference_L.
  - unfold tick. by destruct (outputAudioContextRef st).
Qed.

(** With a decoder that accepts every non-empty payload, the indicator is
    set exactly when the ScheduledSourceSet is non-empty; the failure
    path of the decoder is the only one that breaks the equivalence. *)
Lemma speaking_iff_scheduled_run (evs : list Event) (st : App) :
  (∀ data, data ≠ "" → is_Some (decodeAudioData data)) →
  speaking_iff_scheduled st →
  speaking_iff_scheduled (run decodeAudioData evs st).
Proof.
  intros Hdec. revert st. induction evs as [|ev evs IH]; intros st Hst; [done|].
  cbn [run foldl]. apply IH. clear IH.
  destruct ev as [msg|source|t]; cbn [step].
  - unfold onmessage.
    destruct (handle_toolCall_frame msg st) as (_ & _ & Hs1 & Hi1 & _).
    assert (speaking_iff_scheduled
              (handle_audio decodeAudioData msg (handle_toolCall msg st))) as Haudio.
    { unfold handle_audio, speaking_iff_scheduled in *.
      destruct (audioData msg) as [data|]; [|by rewrite Hs1, Hi1].
      destruct (outputAudioContextRef (handle_toolCall msg st)) as [ctx|];
        [|by rewrite Hs1, Hi1].
      case_decide as Hdata; [by rewrite Hs1, Hi1|].
      destruct (Hdec data Hdata) as (b & ->).
      destruct (schedule_frame ctx b (setIsModelSpeaking true (handle_toolCall msg st)))
        as (_ & _ & _ & _ & ->).
      destruct (schedule_effect ctx b (setIsModelSpeaking true (handle_toolCall msg st)))
        as (_ & -> & _).
      cbn. split; [|done]. intros _.
      apply union_positive_l_alt_L, non_empty_singleton_L. }
    unfold handle_interrupted. destruct (interrupted msg); [|done].
    unfold speaking_iff_scheduled. cbn.
    destruct (outputAudioContextRef _); cbn; split; done.
  - apply onended_indicator; apply Hst.
  - unfold tick, speaking_iff_scheduled in *.
    by destruct (outputAudioContextRef st).
Qed.

End Indicator.

(** ** The volume meter *)

Lemma sum_from (inputData : list R) (acc : R) :
  foldl (fun sum x => (sum + x * x)%R) acc inputData =
    (acc + foldr Rplus 0 ((fun x => x * x) <$> inputData))%R.
Proof.
  revert acc. induction inputData as [|x xs IH]; intros acc; cbn.
  - lra.
  - rewrite IH. lra.
Qed.

Lemma sum_squares (inputData : list R) :
  sum inputData = foldr Rplus 0%R ((fun x => (x * x)%R) <$> inputData).
Proof. unfold sum. rewrite sum_from. lra. Qed.

(** C9.  For a captured frame (it is never empty: the processor delivers
    4096 samples), the value handed to the volume signal is
    min(5 * sqrt(mean of the squared samples), 1), and it lies in [0, 1]. *)
Theorem volume_meter (inputData : list R) :
  (0 < length inputData)%nat →
  volume inputData = Rmin (5 * sqrt (mean_square inputData)) 1 ∧
  (0 <= volume inputData <= 1)%R.
Proof.
  intros _. unfold volume, rms, mean_square. rewrite sum_squares.
  split; [by rewrite Rmult_comm|]. split.
  - apply Rmin_glb; [|lra].
    apply Rmult_le_pos; [apply sqrt_pos|lra].
  - apply Rmin_r.
Qed.

Lemma volume_meter_witness :
  (0 <= volume [(1 / 2)%R; (-1)%R; 0%R] <= 1)%R.
Proof.
  pose proof (volume_meter [(1 / 2)%R; (-1)%R; 0%R]) as H.
  destruct H as (_ & H); [cbn; lia|].
  exact H.
Defined.

(** * Further properties *)

(** ** Teardown and connection *)

(** Read a field through the field updates, leaving the handlers folded. *)
Ltac read_fields :=
  cbn [apiKey connectionState leadData logs isModelSpeaking errorMsg
       processorRef sourceRef mediaStreamRef inputAudioContextRef
       outputAudioContextRef sessionPromiseRef nextStartTimeRef
       scheduledSourcesRef nextSourceId trace
       setLeadData setLogs setIsModelSpeaking setErrorMsg emit
       setConnectionState setProcessorRef setSourceRef setMediaStreamRef
       setInputAudioContextRef setOutputAudioContextRef setSessionPromiseRef
       setNextStartTimeRef setScheduledSourcesRef setNextSourceId log].

Lemma stopAudio_nothing_held (st : App) :
  released st → stopAudio st = st.
Proof.
  destruct st as [k cs ld lg sp em p s m i o sess nx sch nid tr].
  unfold released. cbn. intros (-> & -> & -> & -> & -> & -> & ->).
  unfold stopAudio. cbn. rewrite elements_empty. cbn.
  unfold setNextStartTimeRef, setScheduledSourcesRef, emit. cbn.
  by rewrite app_nil_r.
Qed.

(** X1.  Tearing down twice is the same as tearing down once: the second
    [stopAudio] finds nothing to release, makes no call and changes
    nothing. *)
Theorem stopAudio_idempotent (st : App) :
  stopAudio (stopAudio st) = stopAudio st.
Proof. apply stopAudio_nothing_held, stopAudio_released. Qed.

(** X2.  When the remote session reports an error, the state becomes Error
    with the message "Connection error occurred. Check console."; what was
    held is released by exactly the release calls; the lead record, the
    log and the session reference are left as they were. *)
Theorem onerror_teardown (st : App) :
  connectionState (onerror st) = ERROR ∧
  errorMsg (onerror st) = Some "Connection error occurred. Check console." ∧
  released (onerror st) ∧
  trace (onerror st) = trace st ++ [SetConnectionState ERROR] ++ release_calls st ∧
  leadData (onerror st) = leadData st ∧
  logs (onerror st) = logs st ∧
  sessionPromiseRef (onerror st) = sessionPromiseRef st.
Proof.
  unfold onerror.
  set (st1 := setConnectionState ERROR _).
  destruct (stopAudio_frame st1) as (_ & -> & -> & -> & _ & -> & ->).
  rewrite stopAudio_trace.
  repeat split; try apply stopAudio_released. cbn. by rewrite <- app_assoc.
Qed.

(** X3.  "End Call" is local: the state becomes Disconnected, the session
    reference is dropped and what was held is released, and the only calls
    made are those release calls; nothing is sent to the session.  The
    lead record, the log and the error message are left as they were. *)
Theorem handleDisconnect_local (st : App) :
  connectionState (handleDisconnect st) = DISCONNECTED ∧
  sessionPromiseRef (handleDisconnect st) = false ∧
  released (handleDisconnect st) ∧
  trace (handleDisconnect st) =
    trace st ++ release_calls st ++ [SetConnectionState DISCONNECTED] ∧
  leadData (handleDisconnect st) = leadData st ∧
  logs (handleDisconnect st) = logs st ∧
  errorMsg (handleDisconnect st) = errorMsg st.
Proof.
  unfold handleDisconnect, released. read_fields.
  destruct (stopAudio_frame st) as (_ & _ & -> & -> & _ & -> & _).
  rewrite stopAudio_trace.
  repeat split; try apply stopAudio_released. by rewrite <- app_assoc.
Qed.

(** X4.  A connect request with a credential but without the microphone
    passes through Connecting and ends in Error with the message "Failed
    to access microphone. Please allow permissions."; no session is
    requested, nothing is held afterwards, and the lead record is left as
    it was. *)
Theorem connect_microphone_denied (st : App) :
  apiKey st ≠ "" →
  connectionState (connectToLiveAPI MicrophoneDenied st) = ERROR ∧
  errorMsg (connectToLiveAPI MicrophoneDenied st) =
    Some "Failed to access microphone. Please allow permissions." ∧
  trace (connectToLiveAPI MicrophoneDenied st) =
    trace st ++ [SetConnectionState CONNECTING; GetUserMedia; SetConnectionState ERROR]
             ++ release_calls st ∧
  released (connectToLiveAPI MicrophoneDenied st) ∧
  sessionPromiseRef (connectToLiveAPI MicrophoneDenied st) = sessionPromiseRef st ∧
  leadData (connectToLiveAPI MicrophoneDenied st) = leadData st.
Proof.
  intros Hkey. unfold connectToLiveAPI, connectToLiveAPI_called.
  rewrite !decide_False by done. cbn [connectToLiveAPI_resumed].
  unfold connect_failed. rewrite decide_False by done.
  set (st1 := setConnectionState ERROR _).
  destruct (stopAudio_frame st1) as (_ & -> & -> & _ & _ & -> & ->).
  rewrite stopAudio_trace.
  repeat split; try apply stopAudio_released. cbn. by rewrite <- !app_assoc.
Qed.

Lemma connect_microphone_denied_witness :
  connectionState (connectToLiveAPI MicrophoneDenied (initial "key")) = ERROR ∧
  errorMsg (connectToLiveAPI MicrophoneDenied (initial "key")) =
    Some "Failed to access microphone. Please allow permissions.".
Proof.
  pose proof (connect_microphone_denied (initial "key")) as H.
  destruct H as (H1 & H2 & _); [discriminate|].
  exact (conj H1 H2).
Defined.

Lemma release_calls_only_release (st : App) (key : string) :
  LiveConnect key ∉ release_calls st.
Proof.
  unfold release_calls. intros Hin. rewrite !elem_of_app in Hin.
  destruct Hin as [Hin|[Hin|[Hin|[Hin|[Hin|Hin]]]]].
  - destruct (processorRef st); [|by apply elem_of_nil in Hin].
    apply list_elem_of_singleton in Hin. discriminate.
  - destruct (sourceRef st); [|by apply elem_of_nil in Hin].
    apply list_elem_of_singleton in Hin. discriminate.
  - destruct (mediaStreamRef st); [|by apply elem_of_nil in Hin].
    apply list_elem_of_singleton in Hin. discriminate.
  - destruct (inputAudioContextRef st); [|by apply elem_of_nil in Hin].
    apply list_elem_of_singleton in Hin. discriminate.
  - destruct (outputAudioContextRef st); [|by apply elem_of_nil in Hin].
    apply list_elem_of_singleton in Hin. discriminate.
  - apply list_elem_of_fmap in Hin as (? & ? & _). discriminate.
Qed.

Lemma initializeAudio_resumed_frame (throws_at : option AudioStage) (st : App) :
  trace (initializeAudio_resumed throws_at st) = trace st ∧
  leadData (initializeAudio_resumed throws_at st) = leadData st ∧
  logs (initializeAudio_resumed throws_at st) = logs st ∧
  sessionPromiseRef (initializeAudio_resumed throws_at st) = sessionPromiseRef st ∧
  scheduledSourcesRef (initializeAudio_resumed throws_at st) = scheduledSourcesRef st ∧
  isModelSpeaking (initializeAudio_resumed throws_at st) = isModelSpeaking st ∧
  apiKey (initializeAudio_resumed throws_at st) = apiKey st.
Proof. by destruct throws_at as [[]|]. Qed.

Lemma connect_failed_frame (message : string) (st : App) :
  connectionState (connect_failed message st) = ERROR ∧
  released (connect_failed message st) ∧
  (∃ es, trace (connect_failed message st) = trace st ++ es ∧
         ∀ key, LiveConnect key ∉ es) ∧
  leadData (connect_failed message st) = leadData st ∧
  logs (connect_failed message st) = logs st ∧
  sessionPromiseRef (connect_failed message st) = sessionPromiseRef st ∧
  isModelSpeaking (connect_failed message st) = isModelSpeaking st.
Proof.
  unfold connect_failed.
  set (st1 := setConnectionState ERROR _).
  destruct (stopAudio_frame st1) as (_ & -> & -> & -> & -> & _ & ->).
  rewrite stopAudio_trace.
  repeat split; try apply stopAudio_released.
  exists (SetConnectionState ERROR :: release_calls st1).
  split; [subst st1; read_fields; by rewrite <- app_assoc|].
  intros key Hin. apply elem_of_cons in Hin as [Hin|Hin]; [discriminate|].
  by apply release_calls_only_release in Hin.
Qed.


(** ** Whole sessions *)

Lemma stopAudio_logs_lead (st : App) :
  leadData (stopAudio st) = leadData st ∧ logs (stopAudio st) = logs st ∧
  connectionState (stopAudio st) = connectionState st.
Proof. destruct (stopAudio_frame st) as (_ & -> & -> & -> & _). done. Qed.

Lemma connectToLiveAPI_called_leadData (st : App) :
  leadData (connectToLiveAPI_called st) = leadData st.
Proof. unfold connectToLiveAPI_called. by case_decide. Qed.

Lemma connectToLiveAPI_resumed_leadData (outcome : ConnectOutcome) (st : App) :
  leadData (connectToLiveAPI_resumed outcome st) = leadData st.
Proof.
  destruct outcome as [|stage|message|message|]; cbn [connectToLiveAPI_resumed];
    try match goal with |- context [connect_failed ?m ?s] =>
      destruct (connect_failed_frame m s) as (_ & _ & _ & -> & _) end;
    read_fields;
    try match goal with |- context [initializeAudio_resumed ?t ?s] =>
      destruct (initializeAudio_resumed_frame t s) as (_ & -> & _) end;
    done.
Qed.

Lemma merge_calls_keeps (functionCalls : list FunctionCall) (prev : LeadData) (k : string) :
  is_Some (prev !! k) → is_Some (merge_calls functionCalls prev !! k).
Proof.
  revert prev. induction functionCalls as [|fc fcs IH]; intros prev Hk; [done|].
  destruct (decide (fc_name fc = "updateLeadInfo")) as [Hn|Hn].
  - rewrite merge_calls_update by done. apply IH. rewrite merge_lookup.
    by destruct (fc_args fc !! k).
  - rewrite merge_calls_other by done. by apply IH.
Qed.

Lemma calls_of_cons (a : Action) (actions : list Action) :
  calls_of (a :: actions) = calls_of [a] ++ calls_of actions.
Proof. unfold calls_of. cbn. by rewrite app_nil_r. Qed.

Section Sessions.

Variable decodeAudioData : string -> option AudioBuffer.

Lemma act_leadData (a : Action) (st : App) :
  leadData (act decodeAudioData st a) =
    merge_calls (calls_of [a]) (leadData st).
Proof.
  destruct a as [ |outcome| |msg| | | |source|t];
    cbn [act calls_of mbind list_bind app].
  - apply connectToLiveAPI_called_leadData.
  - apply connectToLiveAPI_resumed_leadData.
  - done.
  - rewrite app_nil_r. rewrite onmessage_leadData.
    destruct (toolCall msg) as [fcs|] eqn:Hmsg.
    + rewrite (handle_toolCall_calls _ _ _ Hmsg). cbn.
      by destruct (sessionPromiseRef st).
    + unfold handle_toolCall. by rewrite Hmsg.
  - unfold onclose. by destruct (stopAudio_logs_lead
      (log system (Text "Connection closed.") (setConnectionState DISCONNECTED st)))
      as (-> & _).
  - unfold onerror. by destruct (stopAudio_logs_lead
      (setConnectionState ERROR
         (setErrorMsg (Some "Connection error occurred. Check console.") st)))
      as (-> & _).
  - unfold handleDisconnect. read_fields.
    by destruct (stopAudio_logs_lead st) as (-> & _).
  - unfold onended. by case_decide.
  - unfold tick. by destruct (outputAudioContextRef st).
Qed.

Lemma session_merge_calls (actions : list Action) (st : App) :
  leadData (session decodeAudioData actions st) =
    merge_calls (calls_of actions) (leadData st).
Proof.
  revert st. induction actions as [|a actions IH]; intros st; [done|].
  change (session decodeAudioData (a :: actions) st)
    with (session decodeAudioData actions (act decodeAudioData st a)).
  by rewrite IH, act_leadData, (calls_of_cons a actions), merge_calls_app.
Qed.

(** X6.  Over any sequence of button presses, session callbacks, ended
    events and clock ticks, the lead record is the record at the start
    with the arguments of the lead-update calls delivered so far laid
    over it one after the other, in order of delivery, the later call
    winning on a field both mention: connecting, closing, failing and
    hanging up never reset it. *)
Theorem session_leadData (actions : list Action) (st : App) :
  leadData (session decodeAudioData actions st) =
    foldl (fun record fc =>
             if decide (fc_name fc = "updateLeadInfo")
             then fc_args fc ∪ record else record)
          (leadData st) (calls_of actions).
Proof. apply session_merge_calls. Qed.

(** X7.  A field of the lead record, once set, stays set through anything
    that happens to the page afterwards. *)
Theorem session_keeps_fields (actions : list Action) (st : App) (k : string) :
  is_Some (leadData st !! k) →
  is_Some (leadData (session decodeAudioData actions st) !! k).
Proof.
  revert st. induction actions as [|a actions IH]; intros st Hk; [done|].
  change (session decodeAudioData (a :: actions) st)
    with (session decodeAudioData actions (act decodeAudioData st a)).
  apply IH. rewrite act_leadData. by apply merge_calls_keeps.
Qed.

End Sessions.

Lemma session_keeps_fields_witness :
  is_Some (leadData (session sample_decoder
                       [HangUp; Connect; Resume SessionRequested; Open;
                        Receive (tool_message [updateLeadInfo "c2" {[ "company" := "Acme" ]}]);
                        Close]
                       (setLeadData (fun _ => {[ "name" := "Asha" ]}) connected)) !! "name").
Proof.
  apply (session_keeps_fields sample_decoder _
           (setLeadData (fun _ => {[ "name" := "Asha" ]}) connected) "name").
  exists "Asha". reflexivity.
Defined.

Lemma assistant_lines_app (l1 l2 : list LogMessage) :
  assistant_lines (l1 ++ l2) = assistant_lines l1 ++ assistant_lines l2.
Proof. apply filter_app. Qed.

Lemma assistant_lines_crm (functionCalls : list FunctionCall) :
  assistant_lines (crm_lines functionCalls) = crm_lines functionCalls.
Proof.
  unfold assistant_lines, crm_lines.
  induction (filter _ functionCalls) as [|fc fcs IH]; [done|].
  cbn [fmap list_fmap]. rewrite filter_cons_True by done. by rewrite IH.
Qed.

Section SessionInvariants.

Variable decodeAudioData : string -> option AudioBuffer.

Lemma onmessage_logs (msg : LiveServerMessage) (st : App) :
  assistant_lines (logs (onmessage decodeAudioData msg st)) =
    assistant_lines (logs st) ++ crm_lines (default [] (toolCall msg)).
Proof.
  unfold onmessage.
  assert (assistant_lines (logs (handle_toolCall msg st)) =
          assistant_lines (logs st) ++ crm_lines (default [] (toolCall msg))) as Htool.
  { destruct (toolCall msg) as [fcs|] eqn:Hmsg.
    - rewrite (handle_toolCall_calls _ _ _ Hmsg). cbn [default].
      destruct (sessionPromiseRef st); read_fields;
        by rewrite assistant_lines_app, assistant_lines_crm.
    - unfold handle_toolCall. rewrite Hmsg. cbn. by rewrite app_nil_r. }
  assert (logs (handle_audio decodeAudioData msg (handle_toolCall msg st)) =
          logs (handle_toolCall msg st)) as Haudio.
  { unfold handle_audio.
    destruct (audioData msg) as [data|]; [|done].
    destruct (outputAudioContextRef _) as [ctx|]; [|done].
    case_decide; [done|].
    destruct (decodeAudioData data) as [b|]; [|done].
    unfold schedule. by case_decide. }
  unfold handle_interrupted. destruct (interrupted msg); [|by rewrite Haudio].
  destruct (outputAudioContextRef _); read_fields;
    by rewrite assistant_lines_app, Haudio, Htool, app_nil_r.
Qed.

Lemma connectToLiveAPI_resumed_logs (outcome : ConnectOutcome) (st : App) :
  assistant_lines (logs (connectToLiveAPI_resumed outcome st)) =
    assistant_lines (logs st).
Proof.
  destruct outcome as [|stage|message|message|]; cbn [connectToLiveAPI_resumed];
    try match goal with |- context [connect_failed ?m ?s] =>
      destruct (connect_failed_frame m s) as (_ & _ & _ & _ & -> & _) end;
    read_fields; rewrite ?assistant_lines_app;
    try match goal with |- context [initializeAudio_resumed ?t ?s] =>
      destruct (initializeAudio_resumed_frame t s) as (_ & _ & -> & _) end;
    cbn; by rewrite ?app_nil_r.
Qed.

Lemma act_logs (a : Action) (st : App) :
  assistant_lines (logs (act decodeAudioData st a)) =
    assistant_lines (logs st) ++ crm_lines (calls_of [a]).
Proof.
  destruct a as [ |outcome| |msg| | | |source|t];
    cbn [act calls_of mbind list_bind app]; rewrite ?app_nil_r.
  - unfold connectToLiveAPI_called. case_decide; [done|].
    read_fields. rewrite !assistant_lines_app. cbn. by rewrite !app_nil_r.
  - apply connectToLiveAPI_resumed_logs.
  - unfold onopen. read_fields. rewrite assistant_lines_app. cbn. by rewrite app_nil_r.
  - apply onmessage_logs.
  - unfold onclose.
    match goal with |- context [stopAudio ?s] =>
      destruct (stopAudio_logs_lead s) as (_ & -> & _) end.
    read_fields. rewrite assistant_lines_app. cbn. by rewrite app_nil_r.
  - unfold onerror.
    match goal with |- context [stopAudio ?s] =>
      destruct (stopAudio_logs_lead s) as (_ & -> & _) end.
    done.
  - unfold handleDisconnect. read_fields.
    by destruct (stopAudio_logs_lead st) as (_ & -> & _).
  - unfold onended. by case_decide.
  - unfold tick. by destruct (outputAudioContextRef st).
Qed.

(** X8.  The activity log gets one assistant line per lead-update call
    delivered, in order of delivery, carrying the arguments of the call;
    nothing else writes or removes an assistant line. *)
Theorem session_crm_log (actions : list Action) (st : App) :
  assistant_lines (logs (session decodeAudioData actions st)) =
    assistant_lines (logs st) ++
    ((fun fc => {| role := assistant; text := CrmUpdate (fc_args fc) |}) <$>
       filter (fun fc => fc_name fc = "updateLeadInfo") (calls_of actions)).
Proof.
  fold (crm_lines (calls_of actions)).
  revert st. induction actions as [|a actions IH]; intros st.
  - cbn. by rewrite app_nil_r.
  - change (session decodeAudioData (a :: actions) st)
      with (session decodeAudioData actions (act decodeAudioData st a)).
    rewrite IH, act_logs, (calls_of_cons a actions).
    unfold crm_lines. by rewrite filter_app, fmap_app, app_assoc.
Qed.

End SessionInvariants.

Lemma connectToLiveAPI_resumed_session (st : App) :
  connectionState (connectToLiveAPI_resumed SessionRequested st) = connectionState st ∧
  acquired (connectToLiveAPI_resumed SessionRequested st) ∧
  sessionPromiseRef (connectToLiveAPI_resumed SessionRequested st) = true ∧
  trace (connectToLiveAPI_resumed SessionRequested st) =
    trace st ++ [LiveConnect (apiKey st)].
Proof.
  unfold acquired. cbn [connectToLiveAPI_resumed initializeAudio_resumed].
  read_fields. repeat split. by eexists.
Qed.

Lemma handleDisconnect_frame (st : App) :
  connectionState (handleDisconnect st) = DISCONNECTED ∧
  apiKey (handleDisconnect st) = apiKey st ∧
  trace (handleDisconnect st) =
    trace st ++ release_calls st ++ [SetConnectionState DISCONNECTED].
Proof.
  unfold handleDisconnect. read_fields.
  destruct (stopAudio_frame st) as (-> & _). rewrite stopAudio_trace.
  repeat split. by rewrite <- app_assoc.
Qed.

(** X9.  "End Call" pressed while a connect request waits for the
    microphone does not cancel the request: when the microphone is then
    granted, the request goes on to build the whole audio pipeline and to
    ask for the session, and the page is left showing Disconnected while
    it holds the pipeline and a session reference. *)
Theorem hang_up_while_waiting (st : App) :
  apiKey st ≠ "" →
  connectionState (connectToLiveAPI_called st) = CONNECTING ∧
  connectionState
    (connectToLiveAPI_resumed SessionRequested
       (handleDisconnect (connectToLiveAPI_called st))) = DISCONNECTED ∧
  acquired
    (connectToLiveAPI_resumed SessionRequested
       (handleDisconnect (connectToLiveAPI_called st))) ∧
  sessionPromiseRef
    (connectToLiveAPI_resumed SessionRequested
       (handleDisconnect (connectToLiveAPI_called st))) = true ∧
  trace (connectToLiveAPI_resumed SessionRequested
           (handleDisconnect (connectToLiveAPI_called st))) =
    trace st ++ [SetConnectionState CONNECTING; GetUserMedia] ++ release_calls st ++
      [SetConnectionState DISCONNECTED; LiveConnect (apiKey st)].
Proof.
  intros Hkey.
  assert (connectionState (connectToLiveAPI_called st) = CONNECTING ∧
          apiKey (connectToLiveAPI_called st) = apiKey st ∧
          release_calls (connectToLiveAPI_called st) = release_calls st ∧
          trace (connectToLiveAPI_called st) =
            trace st ++ [SetConnectionState CONNECTING; GetUserMedia])
    as (Hcs & Hk & Hrel & Htr).
  { unfold connectToLiveAPI_called. rewrite decide_False by done.
    unfold release_calls. read_fields. repeat split. by rewrite <- app_assoc. }
  generalize dependent (connectToLiveAPI_called st). intros st1 Hcs Hk Hrel Htr.
  destruct (handleDisconnect_frame st1) as (Hcs2 & Hk2 & Htr2).
  generalize dependent (handleDisconnect st1). intros st2 Hcs2 Hk2 Htr2.
  destruct (connectToLiveAPI_resumed_session st2) as (-> & Hacq & -> & ->).
  repeat split; try done; try apply Hacq.
  rewrite Htr2, Htr, Hrel, Hk2, Hk. by rewrite <- !app_assoc.
Qed.

Lemma hang_up_while_waiting_witness :
  connectionState
    (connectToLiveAPI_resumed SessionRequested
       (handleDisconnect (connectToLiveAPI_called (initial "key")))) = DISCONNECTED ∧
  acquired
    (connectToLiveAPI_resumed SessionRequested
       (handleDisconnect (connectToLiveAPI_called (initial "key")))).
Proof.
  pose proof (hang_up_while_waiting (initial "key")) as H.
  destruct H as (_ & H1 & H2 & _); [discriminate|].
  exact (conj H1 H2).
Defined.

(** ** More on playback *)

Lemma start_time_from_cursor (cursor now : Qc) : cursor ≤ start_time cursor now.
Proof.
  unfold start_time. case_decide as H; [|apply Qcle_refl].
  apply Qclt_le_weak. eapply Qclt_le_trans; [exact H|apply late_offset_ahead].
Qed.

Section PlaybackOrder.

Variable decodeAudioData : string -> option AudioBuffer.

(** The decoder only yields buffers of non-negative duration. *)
Hypothesis duration_nonneg :
  ∀ data b, decodeAudioData data = Some b → 0 ≤ duration b.

Lemma handle_audio_cursor (msg : LiveServerMessage) (st : App) :
  nextStartTimeRef st ≤ nextStartTimeRef (handle_audio decodeAudioData msg st).
Proof.
  unfold handle_audio.
  destruct (audioData msg) as [data|]; [|apply Qcle_refl].
  destruct (outputAudioContextRef st) as [ctx|]; [|apply Qcle_refl].
  case_decide; [apply Qcle_refl|].
  destruct (decodeAudioData data) as [b|] eqn:Hdec; [|apply Qcle_refl].
  destruct (schedule_effect ctx b (setIsModelSpeaking true st)) as (_ & _ & -> & _).
  read_fields.
  eapply Qcle_trans; [apply (start_time_from_cursor _ (currentTime ctx))|].
  rewrite <- (Qcplus_0_r (start_time _ _)) at 1.
  apply Qcplus_le_mono_l. by eapply duration_nonneg.
Qed.

Lemma step_cursor (ev : Event) (st : App) :
  match ev with Message msg => interrupted msg = false | _ => True end →
  nextStartTimeRef st ≤ nextStartTimeRef (step decodeAudioData st ev).
Proof.
  destruct ev as [msg|source|t]; cbn [step]; intros Hev.
  - unfold onmessage, handle_interrupted. rewrite Hev.
    destruct (handle_toolCall_frame msg st) as (_ & Hn & _).
    rewrite <- Hn at 1. apply handle_audio_cursor.
  - unfold onended. case_decide; apply Qcle_refl.
  - unfold tick. destruct (outputAudioContextRef st); apply Qcle_refl.
Qed.

Lemma run_cursor (evs : list Event) (st : App) :
  uninterrupted evs →
  nextStartTimeRef st ≤ nextStartTimeRef (run decodeAudioData evs st).
Proof.
  revert st. induction evs as [|ev evs IH]; intros st Hevs; [apply Qcle_refl|].
  apply Forall_cons in Hevs as (Hev & Hevs).
  change (run decodeAudioData (ev :: evs) st)
    with (run decodeAudioData evs (step decodeAudioData st ev)).
  eapply Qcle_trans; [by apply step_cursor|by apply IH].
Qed.

(** X10.  As long as no interruption arrives, the playback cursor never
    moves backwards, whatever messages, ended events and clock readings
    come in: at every point of the sequence it is at least what it was at
    any earlier point. *)
Theorem cursor_monotone (before after : list Event) (st : App) :
  uninterrupted (before ++ after) →
  nextStartTimeRef (run decodeAudioData before st) ≤
  nextStartTimeRef (run decodeAudioData (before ++ after) st).
Proof.
  intros Hevs. apply Forall_app in Hevs as (_ & Hafter).
  unfold run at 2. rewrite foldl_app. by apply run_cursor.
Qed.

(** X11.  Two buffers never overlap: if a buffer is started at [s1] and,
    after any messages, ended events and clock readings without an
    interruption, another buffer arrives, the second one is started no
    earlier than [s1] plus the duration of the first. *)
Theorem no_overlap (st : App) (ctx1 ctx2 : AudioContext) (data1 data2 : string)
    (b1 b2 : AudioBuffer) (evs : list Event) :
  outputAudioContextRef st = Some ctx1 →
  data1 ≠ "" → decodeAudioData data1 = Some b1 →
  uninterrupted evs →
  outputAudioContextRef
    (run decodeAudioData evs (onmessage decodeAudioData (audio_message data1) st)) =
    Some ctx2 →
  data2 ≠ "" → decodeAudioData data2 = Some b2 →
  ∃ source1 source2 s1 s2,
    trace (onmessage decodeAudioData (audio_message data1) st) =
      trace st ++ [SourceStart source1 s1] ∧
    trace (onmessage decodeAudioData (audio_message data2)
             (run decodeAudioData evs
                (onmessage decodeAudioData (audio_message data1) st))) =
      trace (run decodeAudioData evs
               (onmessage decodeAudioData (audio_message data1) st)) ++
        [SourceStart source2 s2] ∧
    s1 + duration b1 ≤ s2.
Proof.
  intros Hctx1 Hd1 Hb1 Hevs Hctx2 Hd2 Hb2.
  destruct (audio_step decodeAudioData st ctx1 data1 b1 Hctx1 Hd1 Hb1)
    as (Ht1 & Hn1 & _).
  destruct (audio_step decodeAudioData _ ctx2 data2 b2 Hctx2 Hd2 Hb2)
    as (Ht2 & _).
  do 4 eexists. split; [exact Ht1|]. split; [exact Ht2|].
  rewrite <- Hn1.
  eapply Qcle_trans; [by apply run_cursor|apply start_time_from_cursor].
Qed.

End PlaybackOrder.

Lemma sample_decoder_nonneg (data : string) (b : AudioBuffer) :
  sample_decoder data = Some b → 0 ≤ duration b.
Proof.
  unfold sample_decoder. destruct (String.prefix "!" data); [done|].
  intros [= <-]. cbn [duration].
  change (0 <= Qred (Z.of_nat (String.length data) # 4))%Q.
  rewrite (Qred_correct (Z.of_nat (String.length data) # 4)).
  unfold Qle. cbn. lia.
Qed.

Lemma cursor_monotone_witness :
  nextStartTimeRef (run sample_decoder [Message (audio_message "1234")] connected) ≤
  nextStartTimeRef (run sample_decoder
                      ([Message (audio_message "1234")] ++
                       [Tick (Q2Qc 3); Ended 0; Message (audio_message "12")])
                      connected).
Proof.
  apply (cursor_monotone sample_decoder sample_decoder_nonneg
           [Message (audio_message "1234")]
           [Tick (Q2Qc 3); Ended 0; Message (audio_message "12")] connected).
  repeat constructor.
Defined.

Lemma no_overlap_witness :
  ∃ source1 source2 s1 s2,
    trace (onmessage sample_decoder (audio_message "1234") connected) =
      trace connected ++ [SourceStart source1 s1] ∧
    trace (onmessage sample_decoder (audio_message "12")
             (run sample_decoder [Tick (Q2Qc (1 # 2))]
                (onmessage sample_decoder (audio_message "1234") connected))) =
      trace (run sample_decoder [Tick (Q2Qc (1 # 2))]
               (onmessage sample_decoder (audio_message "1234") connected)) ++
        [SourceStart source2 s2] ∧
    s1 + Q2Qc (4 # 4) ≤ s2.
Proof.
  apply (no_overlap sample_decoder sample_decoder_nonneg connected
           {| currentTime := 0 |} {| currentTime := Q2Qc (1 # 2) |}
           "1234" "12" {| duration := Q2Qc (4 # 4) |} {| duration := Q2Qc (2 # 4) |}
           [Tick (Q2Qc (1 # 2))]).
  - reflexivity.
  - discriminate.
  - reflexivity.
  - repeat constructor.
  - reflexivity.
  - discriminate.
  - reflexivity.
Defined.

Section AfterTeardown.

Variable decodeAudioData : string -> option AudioBuffer.

Lemma audio_without_context (st : App) (data : string) :
  outputAudioContextRef st = None →
  onmessage decodeAudioData (audio_message data) st = st.
Proof.
  intros Hctx. unfold onmessage, handle_toolCall, handle_interrupted, handle_audio.
  cbn [toolCall audioData interrupted audio_message]. by rewrite Hctx.
Qed.

(** X12.  Audio that still arrives after the page has torn its pipeline
    down - after "End Call", a close or an error of the session - is
    dropped: the message changes nothing at all, the indicator included. *)
Theorem audio_after_teardown (st : App) (data : string) :
  onmessage decodeAudioData (audio_message data) (handleDisconnect st) =
    handleDisconnect st ∧
  onmessage decodeAudioData (audio_message data) (onclose st) = onclose st ∧
  onmessage decodeAudioData (audio_message data) (onerror st) = onerror st.
Proof.
  repeat split; apply audio_without_context.
  - unfold handleDisconnect. read_fields.
    by destruct (stopAudio_released st) as (_ & _ & _ & _ & ? & _).
  - unfold onclose. apply stopAudio_released.
  - unfold onerror. apply stopAudio_released.
Qed.


(** X14.  The [ended] event of a handle that is no longer in the set (it
    was force-stopped by an interruption or a teardown before) removes
    nothing: if other handles are scheduled the state is unchanged, and
    if none is, the only effect is that the indicator is cleared. *)
Theorem onended_stale (source : nat) (st : App) :
  source ∉ scheduledSourcesRef st →
  onended source st =
    if decide (scheduledSourcesRef st = ∅) then setIsModelSpeaking false st else st.
Proof.
  intros Hstale. unfold onended.
  assert (scheduledSourcesRef st ∖ {[source]} = scheduledSourcesRef st) as Hsame.
  { apply difference_disjoint_L. by apply disjoint_singleton_r. }
  assert (setScheduledSourcesRef (scheduledSourcesRef st ∖ {[source]}) st = st) as ->.
  { rewrite Hsame. by destruct st. }
  destruct (decide (scheduledSourcesRef st = ∅)) as [Hempty|Hne].
  - rewrite decide_True; [done|]. rewrite Hempty. apply size_empty.
  - rewrite decide_False; [done|]. intros Hsize. apply Hne.
    by apply leibniz_equiv, size_empty_inv.
Qed.

Lemma act_scheduled_speaking (a : Action) (st : App) :
  (scheduledSourcesRef st ≠ ∅ → isModelSpeaking st = true) →
  scheduledSourcesRef (act decodeAudioData st a) ≠ ∅ →
  isModelSpeaking (act decodeAudioData st a) = true.
Proof.
  intros Hst.
  destruct a as [ |outcome| |msg| | | |source|t]; cbn [act].
  - unfold connectToLiveAPI_called. by case_decide.
  - destruct outcome as [|stage|message|message|]; cbn [connectToLiveAPI_resumed];
      try (match goal with |- context [connect_failed ?m ?s] =>
             destruct (connect_failed_frame m s)
               as (_ & (_ & _ & _ & _ & _ & -> & _) & _) end; done).
    read_fields.
    by destruct (initializeAudio_resumed_frame None st) as (_ & _ & _ & _ & -> & -> & _).
  - done.
  - apply (scheduled_implies_speaking decodeAudioData [Message msg] st Hst).
  - unfold onclose.
    match goal with |- context [stopAudio ?s] =>
      destruct (stopAudio_released s) as (_ & _ & _ & _ & _ & -> & _) end.
    done.
  - unfold onerror.
    match goal with |- context [stopAudio ?s] =>
      destruct (stopAudio_released s) as (_ & _ & _ & _ & _ & -> & _) end.
    done.
  - unfold handleDisconnect. read_fields.
    by destruct (stopAudio_released st) as (_ & _ & _ & _ & _ & -> & _).
  - apply (scheduled_implies_speaking decodeAudioData [Ended source] st Hst).
  - apply (scheduled_implies_speaking decodeAudioData [Tick t] st Hst).
Qed.

(** X15.  Whatever the decoder does and whatever happens to the page,
    the indicator is on whenever a handle is scheduled: the model is never
    shown as silent while one of its buffers is queued or playing. *)
Theorem session_scheduled_speaking (actions : list Action) (st : App) :
  (scheduledSourcesRef st ≠ ∅ → isModelSpeaking st = true) →
  scheduledSourcesRef (session decodeAudioData actions st) ≠ ∅ →
  isModelSpeaking (session decodeAudioData actions st) = true.
Proof.
  revert st. induction actions as [|a actions IH]; intros st Hst; [done|].
  change (session decodeAudioData (a :: actions) st)
    with (session decodeAudioData actions (act decodeAudioData st a)).
  apply IH. by apply act_scheduled_speaking.
Qed.

End AfterTeardown.


Lemma onended_stale_witness :
  onended 7 playing =
    if decide (scheduledSourcesRef playing = ∅)
    then setIsModelSpeaking false playing else playing.
Proof.
  apply (onended_stale 7 playing).
  apply (bool_decide_unpack _). by vm_compute.
Defined.

Lemma session_scheduled_speaking_witness :
  isModelSpeaking
    (session sample_decoder
       [Connect; Resume SessionRequested; Open; Receive (audio_message "1234");
        Receive (audio_message "!")] (initial "key")) = true.
Proof.
  apply (session_scheduled_speaking sample_decoder
           [Connect; Resume SessionRequested; Open; Receive (audio_message "1234");
            Receive (audio_message "!")] (initial "key")).
  - intros H. by destruct H.
  - apply (bool_decide_unpack _). by vm_compute.
Defined.

(** ** More on tool calls *)



Lemma merge_calls_union (functionCalls : list FunctionCall) (prev : LeadData) :
  merge_calls functionCalls prev = merge_calls functionCalls ∅ ∪ prev.
Proof.
  revert prev. induction functionCalls as [|fc fcs IH]; intros prev.
  - cbn. by rewrite (left_id_L ∅ (∪)).
  - destruct (decide (fc_name fc = "updateLeadInfo")) as [Hn|Hn].
    + rewrite !(merge_calls_update _ _ _ Hn). rewrite (IH (merge prev _)), (IH (merge ∅ _)).
      unfold merge. rewrite (right_id_L ∅ (∪)). by rewrite (assoc_L (∪)).
    + rewrite !(merge_calls_other _ _ _ Hn). apply IH.
Qed.

Section MoreToolCalls.

Variable decodeAudioData : string -> option AudioBuffer.


(** X17.  Delivering the same message twice leaves the lead record as
    delivering it once: repeated lead updates are harmless. *)
Theorem lead_update_idempotent (msg : LiveServerMessage) (st : App) :
  leadData (onmessage decodeAudioData msg (onmessage decodeAudioData msg st)) =
    leadData (onmessage decodeAudioData msg st).
Proof.
  destruct (toolCall msg) as [fcs|] eqn:Hmsg.
  - rewrite !(onmessage_lead_calls _ _ _ _ Hmsg).
    rewrite (merge_calls_union fcs (merge_calls fcs _)), (merge_calls_union fcs (leadData st)).
    by rewrite (assoc_L (∪)), (idemp_L (∪)).
  - rewrite onmessage_leadData. unfold handle_toolCall at 1. by rewrite Hmsg.
Qed.

(** X18.  Two lead updates that mention different fields give the same
    lead record in either order of arrival. *)
Theorem disjoint_updates_commute (st : App) (id1 id2 : string) (args1 args2 : ToolArgs) :
  dom args1 ## dom args2 →
  leadData (onmessage decodeAudioData (tool_message [updateLeadInfo id2 args2])
              (onmessage decodeAudioData (tool_message [updateLeadInfo id1 args1]) st)) =
  leadData (onmessage decodeAudioData (tool_message [updateLeadInfo id1 args1])
              (onmessage decodeAudioData (tool_message [updateLeadInfo id2 args2]) st)).
Proof.
  intros Hdisj. apply map_disjoint_dom in Hdisj.
  rewrite !(onmessage_lead_calls _ _ [updateLeadInfo _ _]) by done.
  rewrite !merge_calls_update by done. cbn [merge_calls foldl updateLeadInfo fc_args].
  unfold merge. rewrite !(assoc_L (∪)). f_equal. by apply map_union_comm.
Qed.

End MoreToolCalls.

Lemma disjoint_updates_commute_witness :
  leadData (onmessage sample_decoder (tool_message [updateLeadInfo "c2" {[ "company" := "Acme" ]}])
              (onmessage sample_decoder
                 (tool_message [updateLeadInfo "c1" {[ "name" := "Asha" ]}]) connected)) =
  leadData (onmessage sample_decoder (tool_message [updateLeadInfo "c1" {[ "name" := "Asha" ]}])
              (onmessage sample_decoder
                 (tool_message [updateLeadInfo "c2" {[ "company" := "Acme" ]}]) connected)).
Proof.
  apply (disjoint_updates_commute sample_decoder connected "c1" "c2"
           {[ "name" := "Asha" ]} {[ "company" := "Acme" ]}).
  apply (bool_decide_unpack _). by vm_compute.
Defined.

(** ** The lead form and the controls *)

(** X19.  The form always shows the seven fixed rows, in the same order,
    and a "Final Summary" row after them exactly when the record has a
    non-empty summary; that row is therefore never shown as "not
    collected". *)
Theorem LeadForm_rows (data : LeadData) :
  row_label <$> LeadForm data =
    ["Contact Name"; "Email Address"; "Company"; "Role"; "Team Size"; "Timeline";
     "Use Case / Notes"] ++
    (if truthy (data !! "summary") then ["Final Summary"] else []) ∧
  ∀ row, row ∈ LeadForm data → row_label row = "Final Summary" →
         row_collected row = true ∧ Some (row_text row) = data !! "summary".
Proof.
  split.
  - unfold LeadForm. rewrite fmap_app. f_equal.
    by destruct (truthy (data !! "summary")).
  - intros row Hin Hlabel. unfold LeadForm in Hin.
    apply elem_of_app in Hin as [Hin|Hin].
    + repeat (apply elem_of_cons in Hin as [->|Hin]; [discriminate Hlabel|]).
      by apply elem_of_nil in Hin.
    + destruct (truthy (data !! "summary")) eqn:Hsum; [|by apply elem_of_nil in Hin].
      apply list_elem_of_singleton in Hin as ->. unfold Field. cbn. rewrite Hsum.
      split; [done|]. by destruct (data !! "summary").
Qed.

Lemma LeadForm_reads (data data' : LeadData) :
  (∀ k, k ∈ displayed_fields → data !! k = data' !! k) →
  LeadForm data = LeadForm data'.
Proof.
  intros Hsame. unfold LeadForm.
  rewrite !(Hsame _) by (unfold displayed_fields; rewrite !elem_of_cons; auto 10).
  done.
Qed.

Section FormAndUpdates.

Variable decodeAudioData : string -> option AudioBuffer.

(** X20.  A lead update that mentions none of the eight fields of the
    form is stored in the lead record but changes nothing on screen. *)
Theorem unknown_fields_not_shown (st : App) (id : string) (args : ToolArgs) :
  (∀ k, k ∈ displayed_fields → args !! k = None) →
  leadData (onmessage decodeAudioData (tool_message [updateLeadInfo id args]) st) =
    args ∪ leadData st ∧
  LeadForm (leadData (onmessage decodeAudioData
                        (tool_message [updateLeadInfo id args]) st)) =
    LeadForm (leadData st).
Proof.
  intros Hunknown.
  rewrite (onmessage_lead_calls _ _ [updateLeadInfo id args]) by done.
  rewrite merge_calls_update by done. split; [done|].
  apply LeadForm_reads. intros k Hk. cbn [merge_calls foldl updateLeadInfo fc_args].
  by rewrite merge_lookup, (Hunknown k Hk).
Qed.

(** X21.  A lead update that gives one of the seven fields that are
    always shown the empty string makes the form show the row of that
    field as "Not collected yet...", whatever it showed before; one that
    gives the summary the empty string makes the form drop the "Final
    Summary" row. *)
Theorem empty_string_shows_uncollected (st : App) (id : string) (args : ToolArgs) :
  (∀ i k label,
     fixed_rows !! i = Some (k, label) →
     args !! k = Some "" →
     LeadForm (leadData (onmessage decodeAudioData
                           (tool_message [updateLeadInfo id args]) st)) !! i =
       Some {| row_label := label; row_text := "Not collected yet...";
               row_collected := false |}) ∧
  (args !! "summary" = Some "" →
   length (LeadForm (leadData (onmessage decodeAudioData
                                 (tool_message [updateLeadInfo id args]) st))) = 7%nat ∧
   ∀ row, row ∈ LeadForm (leadData (onmessage decodeAudioData
                                      (tool_message [updateLeadInfo id args]) st)) →
          row_label row ≠ "Final Summary").
Proof.
  rewrite (onmessage_lead_calls _ _ [updateLeadInfo id args]) by done.
  rewrite merge_calls_update by done. cbn [merge_calls foldl updateLeadInfo fc_args].
  split.
  - intros i k label Hrow Hk.
    assert (Field label (merge (leadData st) args !! k) =
            {| row_label := label; row_text := "Not collected yet...";
               row_collected := false |}) as Hfield
      by (by rewrite merge_lookup, Hk).
    do 7 (destruct i as [|i]; [injection Hrow as <- <-; cbn; by rewrite Hfield|]).
    discriminate Hrow.
  - intros Hsum.
    assert (truthy (merge (leadData st) args !! "summary") = false) as Hnone
      by (by rewrite merge_lookup, Hsum).
    unfold LeadForm. rewrite Hnone, app_nil_r.
    split; [done|]. intros row Hin Hlabel.
    repeat (apply elem_of_cons in Hin as [->|Hin]; [discriminate Hlabel|]).
    by apply elem_of_nil in Hin.
Qed.

End FormAndUpdates.

Lemma unknown_fields_not_shown_witness :
  LeadForm (leadData (onmessage sample_decoder
                        (tool_message [updateLeadInfo "c1" {[ "phone" := "555" ]}])
                        connected)) =
    LeadForm (leadData connected).
Proof.
  pose proof (unknown_fields_not_shown sample_decoder connected "c1"
                {[ "phone" := "555" ]}) as H.
  destruct H as (_ & H); [|exact H].
  intros k Hk. unfold displayed_fields in Hk.
  repeat (apply elem_of_cons in Hk as [->|Hk]; [reflexivity|]).
  by apply elem_of_nil in Hk.
Defined.

Lemma empty_string_shows_uncollected_witness :
  LeadForm
    (leadData (onmessage sample_decoder
                 (tool_message [updateLeadInfo "c2" {[ "name" := "" ]}])
                 (onmessage sample_decoder
                    (tool_message [updateLeadInfo "c1" {[ "name" := "Asha" ]}])
                    connected))) !! 0%nat =
    Some {| row_label := "Contact Name"; row_text := "Not collected yet...";
            row_collected := false |}.
Proof.
  pose proof (empty_string_shows_uncollected sample_decoder
                (onmessage sample_decoder
                   (tool_message [updateLeadInfo "c1" {[ "name" := "Asha" ]}]) connected)
                "c2" {[ "name" := "" ]}) as (H & _).
  apply (H 0%nat "name" "Contact Name"); reflexivity.
Defined.

(** X22.  The call button is only rendered in the states Disconnected and
    Error, so its "Connecting..." variant is never seen: whenever it is on
    screen it is enabled and labelled "Call Riya"; in the states
    Connecting and Connected the button on screen is "End Call". *)
Theorem call_button_enabled (cs : ConnectionState) :
  (∀ disabled label, control cs = CallButton disabled label →
     disabled = false ∧ label = "Call Riya") ∧
  (control cs = EndCallButton ↔ cs = CONNECTING ∨ cs = CONNECTED).
Proof.
  destruct cs; cbn; split;
    try (intros disabled label [= <- <-]; done);
    try (intros disabled label H; discriminate H);
    split; intros H; try discriminate H; try done; auto;
    destruct H as [H|H]; discriminate H.
Qed.

(** ** The volume meter, continued *)

Lemma volume_range (inputData : list R) : (0 <= volume inputData <= 1)%R.
Proof.
  unfold volume. split.
  - apply Rmin_glb; [|lra].
    apply Rmult_le_pos; [apply sqrt_pos|lra].
  - apply Rmin_r.
Qed.

(** X23.  Whatever frame the meter last saw, the circle of the visualizer
    is between 64 and 114 pixels wide, and exactly 64 when the session is
    not connected. *)
Theorem circle_size_range (isActive : bool) (inputData : list R) :
  (64 <= circle_size isActive (volume inputData) <= 114)%R ∧
  circle_size false (volume inputData) = 64%R.
Proof.
  split; [|done].
  pose proof (volume_range inputData) as [Hlo Hhi].
  unfold circle_size. destruct isActive; lra.
Qed.

Lemma sum_replicate (n : nat) (a : R) :
  sum (replicate n a) = (INR n * (a * a))%R.
Proof.
  rewrite sum_squares. induction n as [|n IH].
  - cbn. lra.
  - cbn [replicate fmap list_fmap foldr]. rewrite IH, S_INR. lra.
Qed.

(** X24.  On a frame whose samples all have the same value [a] - silence,
    or a clipped constant signal - the meter reads min(5 |a|, 1): 0 for
    silence, full scale as soon as |a| reaches 0.2. *)
Theorem volume_constant_frame (n : nat) (a : R) :
  (0 < n)%nat →
  volume (replicate n a) = Rmin (5 * Rabs a) 1.
Proof.
  intros Hn. unfold volume, rms.
  rewrite sum_replicate, length_replicate.
  assert (INR n <> 0)%R as Hne by (apply not_0_INR; lia).
  replace (INR n * (a * a) / INR n)%R with (Rsqr a) by (unfold Rsqr; field; exact Hne).
  by rewrite sqrt_Rsqr_abs, Rmult_comm.
Qed.

Lemma volume_constant_frame_witness :
  volume (replicate 4 (1 / 10)%R) = Rmin (5 * Rabs (1 / 10)) 1.
Proof. apply (volume_constant_frame 4 (1 / 10)%R). lia. Defined.

(** ** Acquisition and release *)

Section Pairing.

Variable decodeAudioData : string -> option AudioBuffer.

Lemma step_acquired (ev : Event) (st : App) :
  acquired st → acquired (step decodeAudioData st ev).
Proof.
  intros (Hp & Hs & Hm & Hi & Ho). unfold acquired.
  destruct ev as [msg|source|t]; cbn [step].
  - unfold onmessage.
    assert (acquired (handle_toolCall msg st)) as (Hp1 & Hs1 & Hm1 & Hi1 & Ho1).
    { unfold acquired. destruct (toolCall msg) as [fcs|] eqn:Hmsg.
      - rewrite (handle_toolCall_calls _ _ _ Hmsg).
        destruct (sessionPromiseRef st); by read_fields.
      - unfold handle_toolCall. by rewrite Hmsg. }
    assert (acquired (handle_audio decodeAudioData msg (handle_toolCall msg st)))
      as (Hp2 & Hs2 & Hm2 & Hi2 & Ho2).
    { unfold acquired, handle_audio.
      destruct (audioData msg) as [data|]; [|done].
      destruct (outputAudioContextRef (handle_toolCall msg st)) as [ctx|] eqn:Hctx;
        [|by rewrite Hctx].
      case_decide; [by rewrite Hctx|].
      destruct (decodeAudioData data) as [b|]; [|by read_fields; rewrite Hctx].
      unfold schedule. case_decide; read_fields; by rewrite Hctx. }
    destruct (handle_interrupted_frame msg
                (handle_audio decodeAudioData msg (handle_toolCall msg st)))
      as (_ & _ & -> & _).
    unfold handle_interrupted. destruct (interrupted msg); [|done].
    destruct (outputAudioContextRef (setIsModelSpeaking false _)); by read_fields.
  - unfold onended. by case_decide.
  - unfold tick. destruct (outputAudioContextRef st) eqn:Hctx; [|by rewrite Hctx].
    by read_fields.
Qed.

Lemma run_acquired (evs : list Event) (st : App) :
  acquired st → acquired (run decodeAudioData evs st).
Proof.
  revert st. induction evs as [|ev evs IH]; intros st Hst; [done|].
  change (run decodeAudioData (ev :: evs) st)
    with (run decodeAudioData evs (step decodeAudioData st ev)).
  by apply IH, step_acquired.
Qed.

Lemma release_calls_acquired (st : App) :
  acquired st →
  release_calls st =
    [ProcessorDisconnect; MicSourceDisconnect; TracksStop; InputContextClose;
     OutputContextClose] ++ (SourceStop <$> elements (scheduledSourcesRef st)).
Proof.
  intros (Hp & Hs & Hm & Hi & (ctx & Ho)).
  unfold release_calls. by rewrite Hp, Hs, Hm, Hi, Ho.
Qed.

(** X25.  Everything a successful connect acquires is released by the
    teardown that ends the session, whatever was received and played in
    between: a close or an error of the session and "End Call" each
    disconnect the processor and the microphone source, stop the tracks,
    close both contexts and stop every source still scheduled. *)
Theorem connect_release_paired (st : App) (evs : list Event) :
  apiKey st ≠ "" →
  let up := run decodeAudioData evs (onopen (connectToLiveAPI SessionRequested st)) in
  trace (onclose up) =
    trace up ++
      [SetConnectionState DISCONNECTED; ProcessorDisconnect; MicSourceDisconnect;
       TracksStop; InputContextClose; OutputContextClose] ++
      (SourceStop <$> elements (scheduledSourcesRef up)) ∧
  trace (onerror up) =
    trace up ++
      [SetConnectionState ERROR; ProcessorDisconnect; MicSourceDisconnect;
       TracksStop; InputContextClose; OutputContextClose] ++
      (SourceStop <$> elements (scheduledSourcesRef up)) ∧
  trace (handleDisconnect up) =
    trace up ++
      [ProcessorDisconnect; MicSourceDisconnect; TracksStop; InputContextClose;
       OutputContextClose] ++
      (SourceStop <$> elements (scheduledSourcesRef up)) ++
      [SetConnectionState DISCONNECTED].
Proof.
  intros Hkey up.
  assert (acquired (onopen (connectToLiveAPI SessionRequested st))) as Hacq.
  { unfold connectToLiveAPI, connectToLiveAPI_called. rewrite !decide_False by done.
    unfold acquired. cbn [connectToLiveAPI_resumed initializeAudio_resumed onopen].
    read_fields. repeat split. by eexists. }
  apply (run_acquired evs) in Hacq. fold up in Hacq.
  apply release_calls_acquired in Hacq.
  generalize dependent up. intros up Hrel.
  repeat split.
  - unfold onclose. rewrite stopAudio_trace.
    unfold release_calls in *. read_fields. rewrite Hrel.
    by rewrite <- !app_assoc.
  - unfold onerror. rewrite stopAudio_trace.
    unfold release_calls in *. read_fields. rewrite Hrel.
    by rewrite <- !app_assoc.
  - unfold handleDisconnect. read_fields. rewrite stopAudio_trace, Hrel.
    by rewrite <- !app_assoc.
Qed.

(** X26.  "End Call" pressed while the session is still connecting does
    not cancel the session: when its open callback fires afterwards, the
    page shows Connected although nothing of the audio pipeline is held
    and the session reference is gone. *)
Theorem open_after_hang_up (st : App) :
  connectionState st = CONNECTING →
  click st = handleDisconnect st ∧
  connectionState (onopen (click st)) = CONNECTED ∧
  released (onopen (click st)) ∧
  sessionPromiseRef (onopen (click st)) = false.
Proof.
  intros Hcs.
  assert (click st = handleDisconnect st) as ->.
  { unfold click. by rewrite Hcs. }
  unfold onopen, handleDisconnect, released. read_fields.
  repeat split; apply stopAudio_released.
Qed.

End Pairing.

Lemma connect_release_paired_witness :
  trace (onclose (run sample_decoder [Message (audio_message "1234")]
                    (onopen (connectToLiveAPI SessionRequested (initial "key"))))) =
    trace (run sample_decoder [Message (audio_message "1234")]
             (onopen (connectToLiveAPI SessionRequested (initial "key")))) ++
      [SetConnectionState DISCONNECTED; ProcessorDisconnect; MicSourceDisconnect;
       TracksStop; InputContextClose; OutputContextClose] ++
      (SourceStop <$> elements
         (scheduledSourcesRef
            (run sample_decoder [Message (audio_message "1234")]
               (onopen (connectToLiveAPI SessionRequested (initial "key")))))).
Proof.
  pose proof (connect_release_paired sample_decoder (initial "key")
                [Message (audio_message "1234")]) as H.
  destruct H as (H & _); [discriminate|].
  exact H.
Defined.

Lemma open_after_hang_up_witness :
  connectionState
    (onopen (click (connectToLiveAPI SessionRequested (initial "key")))) = CONNECTED ∧
  released (onopen (click (connectToLiveAPI SessionRequested (initial "key")))).
Proof.
  pose proof (open_after_hang_up (connectToLiveAPI SessionRequested (initial "key"))
                eq_refl) as (_ & H1 & H2 & _).
  exact (conj H1 H2).
Defined.
